(** * Root policy status controller

    A shallow embedding of
    [controllers/rootpolicystatus/root_policy_status_controller.go]
    (package [policystatus]) and the properties of its decision-set
    builder, its per-cluster status aggregation and its status writer.

    Conventions of the embedding.
    - Go strings are [string]s (sequences of bytes); [<] on strings is the
      bytewise lexicographic order [String.ltb].
    - A nil slice and an empty slice are both the empty list: the code only
      appends to, ranges over and takes [len] of its slices.  The nil map
      that [getAllClusterDecisions] returns is kept apart from an empty map
      ([None] against [Some ∅]) because [getDecisions] tests for it.
    - Every function that talks to the API server runs in the monad [M],
      which records the requests it issues, in order.  Reads are answered
      from one snapshot of the object store (a [Client]); a [Get] that fails
      leaves its out-parameter at the zero value.  The log lines of the
      controller are left out.
    - One invocation of [Reconcile] is modelled, sequentially: the lock it
      takes appears in its log, the other goroutines do not.
    - [range] over a Go map enumerates the keys in an unspecified order: the
      enumeration is a parameter of the controller ([MapRange]), as is the
      sorter behind [sort.Slice] ([SliceSorter]). *)

From Stdlib Require Import Ascii Sorting.Sorted.
From stdpp Require Import base option list gmap sets strings sorting.

(** ** Go strings *)

Module strings.

(** [strings.ToLower] and [strings.EqualFold], on the ASCII letters: the
    remediation actions the API admits ("Enforce", "Inform" and their case
    variants) are made of them, and every other byte is left as it is. *)
Definition isUpper (c : ascii) : bool :=
  (65 <=? nat_of_ascii c) && (nat_of_ascii c <=? 90).

Definition toLower (c : ascii) : ascii :=
  if isUpper c then ascii_of_nat (nat_of_ascii c + 32) else c.

Fixpoint ToLower (s : string) : string :=
  match s with
  | EmptyString => EmptyString
  | String c s' => String (toLower c) (ToLower s')
  end.

(** Two bytes fold together when they are equal or are the upper and lower
    case of one letter. *)
Definition foldEq (sr tr : ascii) : bool :=
  if Ascii.eqb tr sr then true
  else
    let (lo, hi) := if (nat_of_ascii tr <? nat_of_ascii sr)%nat
                    then (tr, sr) else (sr, tr) in
    isUpper lo && Ascii.eqb hi (ascii_of_nat (nat_of_ascii lo + 32)).

Fixpoint EqualFold (s t : string) : bool :=
  match s, t with
  | EmptyString, EmptyString => true
  | String sr s', String tr t' => foldEq sr tr && EqualFold s' t'
  | _, _ => false
  end.

End strings.

(** ** Errors *)

(** A Go [error]: whether it is an API "not found" status, its message, and
    the error it wraps, if any. *)
#[warnings="-register-all"]
Inductive error : Type :=
  mkError (notFound : bool) (msg : string) (wrapped : option error).

Definition Error (e : error) : string :=
  match e with mkError _ msg _ => msg end.

Definition Unwrap (e : error) : option error :=
  match e with mkError _ _ w => w end.

(** [k8serrors.IsNotFound] looks through the chain of wrapped errors. *)
Fixpoint IsNotFound (e : error) : bool :=
  match e with
  | mkError nf _ w =>
      nf || match w with Some e' => IsNotFound e' | None => false end
  end.

(** [errors.New] *)
Definition errors_New (msg : string) : error := mkError false msg None.

(** [fmt.Errorf] with a format that ends in [%w]: [msg] is the formatted
    text before the wrapped error's own message. *)
Definition fmt_Errorf_w (msg : string) (err : error) : error :=
  mkError false (msg +:+ Error err) (Some err).

(** ** API objects *)

Record NamespacedName := { Namespace : string; Name : string }.

(** [appsv1.PlacementDecision], the identity of one target cluster *)
Record PlacementDecision := { ClusterName : string; ClusterNamespace : string }.

Global Instance PlacementDecision_eq_dec : EqDecision PlacementDecision.
Proof. solve_decision. Defined.

Global Instance PlacementDecision_countable : Countable PlacementDecision.
Proof.
  refine (inj_countable' (λ d, (ClusterName d, ClusterNamespace d))
                         (λ p, {| ClusterName := p.1; ClusterNamespace := p.2 |}) _).
  by intros [].
Defined.

Record BindingOverrides := { RemediationAction : string }.

Record Subject := { subjAPIGroup : string; subjKind : string; subjName : string }.

Record PlacementSubject := { refAPIGroup : string; refKind : string; refName : string }.

Record PlacementBinding := {
  pbName : string;
  pbNamespace : string;
  PlacementRef : PlacementSubject;
  Subjects : list Subject;
  SubFilter : string;
  pbBindingOverrides : BindingOverrides
}.

(** [policiesv1.Placement], one provenance record of the root status *)
Record Placement := {
  plPlacementBinding : string;
  plPlacement : string;
  plPlacementRule : string;
  plPolicySet : string
}.

Record CompliancePerClusterStatus := {
  cpcsComplianceState : string;
  cpcsClusterName : string;
  cpcsClusterNamespace : string
}.

Record PolicyStatus := {
  stPlacement : list Placement;
  stStatus : list CompliancePerClusterStatus;
  stComplianceState : string
}.

Record Policy := {
  polName : string;
  polNamespace : string;
  Disabled : bool;
  Status : PolicyStatus
}.

Record PlacementRuleObj := { plrName : string }.
Record PlacementObj := { plcName : string }.
Record PolicySetObj := { Policies : list string }.

(** Zero values, what a [Get] that failed leaves in its out-parameter. *)
Definition zeroPolicyStatus : PolicyStatus :=
  {| stPlacement := []; stStatus := []; stComplianceState := "" |}.
Definition zeroPolicy : Policy :=
  {| polName := ""; polNamespace := ""; Disabled := false; Status := zeroPolicyStatus |}.

(** Constants of [api/v1]. *)

(** Modelled from the spec: [policiesv1.SchemeGroupVersion.Group],
    [policiesv1.Kind], [policiesv1.PolicySetKind], [policiesv1.Restricted] and
    [policiesv1.Enforce] are declared in the repository's [api/v1] package,
    outside the controller's file.  The spec names the subject kinds Policy
    and PolicySet, the sub-filter value restricted, and an override that is
    compared case-insensitively with "enforce". *)
Definition SchemeGroupVersion_Group : string := "policy.open-cluster-management.io".
Definition Kind : string := "Policy".
Definition PolicySetKind : string := "PolicySet".
Definition Restricted : string := "restricted".
Definition Enforce : string := "Enforce".

(** ** The client and the request log *)

(** What a run logs: each call of the binding resolver
    ([getPolicyPlacementDecisions], logged on entry), each request to the
    client or to [common.GetDecisions], and the taking and the release of
    the lock of a root policy. *)
Inductive Call : Type :=
| CallResolve (pb : PlacementBinding)
| CallGetPolicySet (key : NamespacedName)
| CallGetPlacementRule (key : NamespacedName)
| CallGetPlacement (key : NamespacedName)
| CallGetDecisions (pb : PlacementBinding)
| CallListBindings (namespace : string)
| CallGetPolicy (key : NamespacedName)
| CallStatusUpdate (obj : Policy)
| CallLock (key : NamespacedName)
| CallUnlock (key : NamespacedName).

Inductive GetResult (T : Type) : Type :=
| Found (obj : T)
| Failed (err : error).
Arguments Found {T} obj.
Arguments Failed {T} err.

(** One snapshot of the object store, with the collaborators of the packages
    [controllers/common] and [controllers/propagator] that the controller
    calls: their code is outside this file, so they are fields here. *)
Record Client := {
  storePolicySet : NamespacedName → GetResult PolicySetObj;
  storePlacementRule : NamespacedName → GetResult PlacementRuleObj;
  storePlacement : NamespacedName → GetResult PlacementObj;
  storePolicy : NamespacedName → GetResult Policy;
  storeBindings : string → error + list PlacementBinding;
  storeStatusUpdate : Policy → option error;
  common_HasValidPlacementRef : PlacementBinding → bool;
  common_GetDecisions : PlacementBinding → list PlacementDecision * option error;
  propagator_CalculateRootCompliance : list CompliancePerClusterStatus → string
}.

(** A computation that returns a value and the requests it made. *)
Record M (A : Type) : Type := mkM { result : A; calls : list Call }.
Arguments mkM {A} result calls.
Arguments result {A} m.
Arguments calls {A} m.

Global Instance M_ret : MRet M := λ A a, mkM a [].
Global Instance M_bind : MBind M := λ A B f m,
  let r := f (result m) in mkM (result r) (calls m ++ calls r).

Definition call {A} (c : Call) (a : A) : M A := mkM a [c].

(** ** Sorting slices *)

(** What [sort.Slice] asks of its [less]: a strict weak ordering. *)
Record StrictWeak {A} (less : A → A → bool) : Prop := {
  less_asym : ∀ a b, less a b = true → less b a = false;
  less_negtrans : ∀ a b c, less a b = false → less b c = false → less a c = false
}.

(** [NotAfter less a b]: [a] may stand before [b] in a slice sorted by [less]. *)
Definition NotAfter {A} (less : A → A → bool) (a b : A) : Prop := less b a = false.

(** [sort.Slice]: the result holds the same elements and none of them is
    less than one before it.  The library does not promise more (the sort
    is not stable), so the controller is verified against every sorter that
    keeps this contract. *)
Class SliceSorter := {
  sort_Slice : ∀ {A}, (A → A → bool) → list A → list A;
  sort_Slice_perm : ∀ A (less : A → A → bool) (x : list A),
    sort_Slice less x ≡ₚ x;
  sort_Slice_sorted : ∀ A (less : A → A → bool) (x : list A),
    StrictWeak less → Sorted (NotAfter less) (sort_Slice less x)
}.

(** The insertion sort that [sort.Slice] runs on a slice of at most twelve
    elements: each element in turn is swapped leftwards while it is less than
    its left neighbour.  [swapDown less e rp] works on the part already
    sorted, held nearest-first. *)
Fixpoint swapDown {A} (less : A → A → bool) (e : A) (rp : list A) : list A :=
  match rp with
  | [] => [e]
  | p :: rp' => if less e p then p :: swapDown less e rp' else e :: rp
  end.

Definition insertionSort {A} (less : A → A → bool) (x : list A) : list A :=
  reverse (fold_left (λ rp e, swapDown less e rp) x []).

(** ** Ranging over a map *)

(** [decisionSet], a [map[PlacementDecision]bool] *)
Abbreviation decisionSet := (gmap PlacementDecision bool).

(** [order] enumerates the keys of [m] the way one [range] over it may:
    each key once, in any order. *)
Definition RangeOrder (m : decisionSet) (order : list PlacementDecision) : Prop :=
  NoDup order ∧ ∀ dec, dec ∈ order ↔ is_Some (m !! dec).

(** The order in which the runtime enumerates a [decisionSet].  Go leaves it
    unspecified, so the controller is verified against every choice, and two
    calls may be run under two different ones. *)
Class MapRange := {
  rangeKeys : decisionSet → list PlacementDecision;
  rangeKeys_order : ∀ m, RangeOrder m (rangeKeys m)
}.

(** ** Client requests *)

Section controller.

Context (r : Client) `{sorter : SliceSorter} `{ranger : MapRange}.

Definition Get_PolicySet (key : NamespacedName) : M (GetResult PolicySetObj) :=
  call (CallGetPolicySet key) (storePolicySet r key).
Definition Get_PlacementRule (key : NamespacedName) : M (GetResult PlacementRuleObj) :=
  call (CallGetPlacementRule key) (storePlacementRule r key).
Definition Get_Placement (key : NamespacedName) : M (GetResult PlacementObj) :=
  call (CallGetPlacement key) (storePlacement r key).
Definition Get_Policy (key : NamespacedName) : M (GetResult Policy) :=
  call (CallGetPolicy key) (storePolicy r key).
Definition List_PlacementBindings (namespace : string)
  : M (error + list PlacementBinding) :=
  call (CallListBindings namespace) (storeBindings r namespace).
Definition Status_Update (obj : Policy) : M (option error) :=
  call (CallStatusUpdate obj) (storeStatusUpdate r obj).
Definition GetDecisions (pb : PlacementBinding)
  : M (list PlacementDecision * option error) :=
  call (CallGetDecisions pb) (common_GetDecisions r pb).

(** ** isPolicyInPolicySet *)

Definition isPolicyInPolicySet (policyName policySetName namespace : string) : M bool :=
  let setNN := {| Name := policySetName; Namespace := namespace |} in
  got ← Get_PolicySet setNN;
  match got with
  | Failed _ => mret false
  | Found policySet => mret (bool_decide (policyName ∈ Policies policySet))
  end.

(** ** getPolicyPlacementDecisions, the binding resolver *)

(** The locals of the loop over the subjects. *)
Record subjectsState := {
  policySubjectFound : bool;
  policySetSubjects : gset string;
  placementsSoFar : list Placement
}.

Definition newPlacement (binding policySet : string) : Placement :=
  {| plPlacementBinding := binding; plPlacement := ""; plPlacementRule := "";
     plPolicySet := policySet |}.

(** One turn of [for _, subject := range pb.Subjects]. *)
Definition subjectStep (instance : Policy) (pb : PlacementBinding)
    (st : subjectsState) (subject : Subject) : M subjectsState :=
  if negb (String.eqb (subjAPIGroup subject) SchemeGroupVersion_Group) then mret st
  else if String.eqb (subjKind subject) Kind then
    if negb (policySubjectFound st) && String.eqb (subjName subject) (polName instance)
    then mret {| policySubjectFound := true;
                 policySetSubjects := policySetSubjects st;
                 placementsSoFar := placementsSoFar st ++ [newPlacement (pbName pb) ""] |}
    else mret st
  else if String.eqb (subjKind subject) PolicySetKind then
    if bool_decide (subjName subject ∈ policySetSubjects st) then mret st
    else
      inSet ← isPolicyInPolicySet (polName instance) (subjName subject) (pbNamespace pb);
      mret {| policySubjectFound := policySubjectFound st;
              policySetSubjects := {[subjName subject]} ∪ policySetSubjects st;
              placementsSoFar :=
                if inSet : bool
                then placementsSoFar st ++ [newPlacement (pbName pb) (subjName subject)]
                else placementsSoFar st |}
  else mret st.

Fixpoint subjectsLoop (instance : Policy) (pb : PlacementBinding)
    (st : subjectsState) (subjects : list Subject) : M subjectsState :=
  match subjects with
  | [] => mret st
  | subject :: rest =>
      st' ← subjectStep instance pb st subject;
      subjectsLoop instance pb st' rest
  end.

Definition setPlacementRule (name : string) (p : Placement) : Placement :=
  {| plPlacementBinding := plPlacementBinding p; plPlacement := plPlacement p;
     plPlacementRule := name; plPolicySet := plPolicySet p |}.

Definition setPlacement (name : string) (p : Placement) : Placement :=
  {| plPlacementBinding := plPlacementBinding p; plPlacement := name;
     plPlacementRule := plPlacementRule p; plPolicySet := plPolicySet p |}.

(** The [switch pb.PlacementRef.Kind]: the placements with the name of the
    referenced object filled in, or the error of a lookup that failed
    otherwise than by not-found. *)
Definition resolvePlacementRef (pb : PlacementBinding) (placements : list Placement)
    : M (error + list Placement) :=
  let refNN := {| Namespace := pbNamespace pb; Name := refName (PlacementRef pb) |} in
  if String.eqb (refKind (PlacementRef pb)) "PlacementRule" then
    got ← Get_PlacementRule refNN;
    match got with
    | Failed err =>
        if negb (IsNotFound err)
        then mret (inl (fmt_Errorf_w
               ("failed to check for PlacementRule '" +:+ refName (PlacementRef pb) +:+ "': ")
               err))
        else mret (inr (setPlacementRule "" <$> placements))
    | Found plr => mret (inr (setPlacementRule (plrName plr) <$> placements))
    end
  else if String.eqb (refKind (PlacementRef pb)) "Placement" then
    got ← Get_Placement refNN;
    match got with
    | Failed err =>
        if negb (IsNotFound err)
        then mret (inl (fmt_Errorf_w
               ("failed to check for Placement '" +:+ refName (PlacementRef pb) +:+ "': ")
               err))
        else mret (inr (setPlacement "" <$> placements))
    | Found pl => mret (inr (setPlacement (plcName pl) <$> placements))
    end
  else mret (inr placements).

(** What the resolver returns: [(decisions, placements, err)]. *)
Definition Resolved : Type := list PlacementDecision * list Placement * option error.

Definition getPolicyPlacementDecisions (instance : Policy) (pb : PlacementBinding)
    : M Resolved :=
  _ ← call (CallResolve pb) ();
  if negb (common_HasValidPlacementRef r pb) then
    mret ([], [], Some (errors_New
      ("placement binding " +:+ pbName pb +:+ "/" +:+ pbNamespace pb
         +:+ " reference is not valid")))
  else
    st ← subjectsLoop instance pb
           {| policySubjectFound := false; policySetSubjects := ∅;
              placementsSoFar := [] |}
           (Subjects pb);
    let placements := placementsSoFar st in
    if bool_decide (length placements = 0) then mret ([], [], None)
    else
      refd ← resolvePlacementRef pb placements;
      match refd with
      | inl err => mret ([], [], Some err)
      | inr placements =>
          if bool_decide (length placements = 0) then mret ([], [], None)
          else if Disabled instance then mret ([], placements, None)
          else
            got ← GetDecisions pb;
            mret (got.1, placements, got.2)
      end.

(** ** getAllClusterDecisions, the decision-set builder *)

(** The body of [for _, decision := range plcDecisions] of the first loop. *)
Definition mergeDecision (pb : PlacementBinding)
    (decisions : gmap PlacementDecision BindingOverrides) (decision : PlacementDecision)
    : gmap PlacementDecision BindingOverrides :=
  match decisions !! decision with
  | Some overrides =>
      if strings.EqualFold (RemediationAction (pbBindingOverrides pb)) Enforce
      then <[decision := {| RemediationAction := strings.ToLower Enforce |}]> decisions
      else decisions
  | None =>
      <[decision := {| RemediationAction :=
                         strings.ToLower (RemediationAction (pbBindingOverrides pb)) |}]>
        decisions
  end.

(** The body of [for _, decision := range plcDecisions] of the second loop,
    on the pair of the map and the [foundInDecisions] flag. *)
Definition confirmDecision (pb : PlacementBinding)
    (st : gmap PlacementDecision BindingOverrides * bool) (decision : PlacementDecision)
    : gmap PlacementDecision BindingOverrides * bool :=
  match st.1 !! decision with
  | Some overrides =>
      (if strings.EqualFold (RemediationAction (pbBindingOverrides pb)) Enforce
       then <[decision := {| RemediationAction := strings.ToLower Enforce |}]> st.1
       else st.1,
       true)
  | None => st
  end.

(** The state of either loop over [pbList.Items]: the map and the
    placements gathered so far. *)
Definition Gathered : Type :=
  gmap PlacementDecision BindingOverrides * list Placement.

(** First loop: the bindings without [subFilter: restricted]. *)
Fixpoint unrestrictedLoop (instance : Policy) (items : list PlacementBinding)
    (acc : Gathered) : M (error + Gathered) :=
  match items with
  | [] => mret (inr acc)
  | pb :: rest =>
      if String.eqb (SubFilter pb) Restricted then unrestrictedLoop instance rest acc
      else
        res ← getPolicyPlacementDecisions instance pb;
        let '(plcDecisions, plcPlacements, err) := res in
        match err with
        | Some err => mret (inl err)
        | None =>
            unrestrictedLoop instance rest
              (foldl (mergeDecision pb) acc.1 plcDecisions, acc.2 ++ plcPlacements)
        end
  end.

(** Second loop: the bindings with [subFilter: restricted]. *)
Fixpoint restrictedLoop (instance : Policy) (items : list PlacementBinding)
    (acc : Gathered) : M (error + Gathered) :=
  match items with
  | [] => mret (inr acc)
  | pb :: rest =>
      if negb (String.eqb (SubFilter pb) Restricted) then restrictedLoop instance rest acc
      else
        res ← getPolicyPlacementDecisions instance pb;
        let '(plcDecisions, plcPlacements, err) := res in
        match err with
        | Some err => mret (inl err)
        | None =>
            let '(decisions, foundInDecisions) :=
              foldl (confirmDecision pb) (acc.1, false) plcDecisions in
            restrictedLoop instance rest
              (decisions, if foundInDecisions then acc.2 ++ plcPlacements else acc.2)
        end
  end.

Definition byPlacementBinding (a b : Placement) : bool :=
  String.ltb (plPlacementBinding a) (plPlacementBinding b).

(** What the builder returns: [(decisions, placements, err)], the map being
    [None] for Go's nil. *)
Definition Built : Type :=
  option (gmap PlacementDecision BindingOverrides) * list Placement * option error.

Definition getAllClusterDecisions (instance : Policy) (pbList : list PlacementBinding)
    : M Built :=
  first ← unrestrictedLoop instance pbList (∅, []);
  match first with
  | inl err => mret (None, [], Some err)
  | inr (decisions, placements) =>
      if bool_decide (size decisions = 0) then
        mret (None, sort_Slice byPlacementBinding placements, None)
      else
        second ← restrictedLoop instance pbList (decisions, placements);
        match second with
        | inl err => mret (None, [], Some err)
        | inr (decisions, placements) =>
            mret (Some decisions, sort_Slice byPlacementBinding placements, None)
        end
  end.

(** ** getDecisions *)

(** The loop [for dec := range allClusterDecisions] sets [decisions[dec]]
    to [true] for each key: a fold whose result does not depend on the
    order of the enumeration. *)
Definition getDecisions (instance : Policy)
    : M (list Placement * decisionSet * option error) :=
  let decisions : decisionSet := ∅ in
  listed ← List_PlacementBindings (polNamespace instance);
  match listed with
  | inl err => mret ([], decisions, Some err)
  | inr pbList =>
      built ← getAllClusterDecisions instance pbList;
      let '(allClusterDecisions, placements, err) := built in
      match err with
      | Some err => mret (placements, decisions, Some err)
      | None =>
          let allClusterDecisions :=
            match allClusterDecisions with
            | None => ∅
            | Some m => m
            end in
          mret (placements,
                map_fold (λ dec _ (ds : decisionSet), <[dec := true]> ds)
                         decisions allClusterDecisions,
                None)
      end
  end.

(** ** calculatePerClusterStatus *)

Definition replicaKey (instance : Policy) (dec : PlacementDecision) : NamespacedName :=
  {| Namespace := ClusterNamespace dec;
     Name := polNamespace instance +:+ "." +:+ polName instance |}.

(** One turn of [for dec := range decisions], on the pair of [status] and
    [lookupErr]. *)
Definition statusStep (instance : Policy)
    (st : list CompliancePerClusterStatus * option error) (dec : PlacementDecision)
    : M (list CompliancePerClusterStatus * option error) :=
  let key := replicaKey instance dec in
  got ← Get_Policy key;
  match got with
  | Failed err =>
      if IsNotFound err then
        mret (st.1 ++ [ {| cpcsComplianceState := "";
                           cpcsClusterName := ClusterName dec;
                           cpcsClusterNamespace := ClusterNamespace dec |} ], st.2)
      else
        mret (st.1 ++ [ {| cpcsComplianceState := stComplianceState (Status zeroPolicy);
                           cpcsClusterName := ClusterName dec;
                           cpcsClusterNamespace := ClusterNamespace dec |} ], Some err)
  | Found replicatedPolicy =>
      mret (st.1 ++ [ {| cpcsComplianceState := stComplianceState (Status replicatedPolicy);
                         cpcsClusterName := ClusterName dec;
                         cpcsClusterNamespace := ClusterNamespace dec |} ], st.2)
  end.

Fixpoint statusLoop (instance : Policy)
    (st : list CompliancePerClusterStatus * option error) (order : list PlacementDecision)
    : M (list CompliancePerClusterStatus * option error) :=
  match order with
  | [] => mret st
  | dec :: rest =>
      st' ← statusStep instance st dec;
      statusLoop instance st' rest
  end.

Definition byClusterName (a b : CompliancePerClusterStatus) : bool :=
  String.ltb (cpcsClusterName a) (cpcsClusterName b).

Definition calculatePerClusterStatus (instance : Policy) (decisions : decisionSet)
    : M (list CompliancePerClusterStatus * option error) :=
  if Disabled instance then mret ([], None)
  else
    st ← statusLoop instance ([], None) (rangeKeys decisions);
    mret (sort_Slice byClusterName st.1, st.2).

(** ** rootStatusUpdate *)

Definition setStatus (p : Policy) (s : PolicyStatus) : Policy :=
  {| polName := polName p; polNamespace := polNamespace p; Disabled := Disabled p;
     Status := s |}.

Definition rootStatusUpdate (rootPolicy : Policy) : M (option error) :=
  got ← getDecisions rootPolicy;
  let '(placements, decisions, err) := got in
  match err with
  | Some _ => mret (Some (errors_New "could not get the placement decisions"))
  | None =>
      st ← calculatePerClusterStatus rootPolicy decisions;
      let cpcs := st.1 in
      refreshed ← Get_Policy {| Namespace := polNamespace rootPolicy;
                                Name := polName rootPolicy |};
      let rootPolicy :=
        match refreshed with
        | Found fresh => fresh
        | Failed _ => rootPolicy
        end in
      let rootPolicy :=
        setStatus rootPolicy
          {| stStatus := cpcs;
             stComplianceState := propagator_CalculateRootCompliance r cpcs;
             stPlacement := placements |} in
      Status_Update rootPolicy
  end.

(** ** Reconcile *)

(** What [Reconcile] does between taking the lock of the root policy and
    releasing it. *)
Definition reconcileLocked (request : NamespacedName) : M (option error) :=
  got ← Get_Policy {| Namespace := Namespace request; Name := Name request |};
  match got with
  | Failed err => if IsNotFound err then mret None else mret (Some err)
  | Found rootPolicy =>
      err ← rootStatusUpdate rootPolicy;
      match err with
      | Some err => mret (Some err)
      | None => mret None
      end
  end.

(** [Reconcile] returns an empty [reconcile.Result] with its error; the
    error is what is kept here.  [CallLock] stands for the [LoadOrStore] of
    the mutex of the request and its [Lock], [CallUnlock] for the deferred
    [Unlock]. *)
Definition Reconcile (request : NamespacedName) : M (option error) :=
  _ ← call (CallLock request) ();
  res ← reconcileLocked request;
  _ ← call (CallUnlock request) ();
  mret res.

End controller.

(** * Properties *)

(** ** The request log *)

Lemma result_bind {A B} (m : M A) (f : A → M B) :
  result (m ≫= f) = result (f (result m)).
Proof. reflexivity. Qed.

Lemma calls_bind {A B} (m : M A) (f : A → M B) :
  calls (m ≫= f) = calls m ++ calls (f (result m)).
Proof. reflexivity. Qed.

(** ** Case folding *)

Module strings_facts.
Import strings.

Ltac by_bytes c := destruct c as [[] [] [] [] [] [] [] []]; vm_compute; reflexivity.

Lemma foldEq_lower (c t : ascii) :
  t ∈ ["E"; "n"; "f"; "o"; "r"; "c"; "e"]%char →
  foldEq c t = Ascii.eqb (toLower c) (toLower t).
Proof.
  intros Ht. repeat (apply elem_of_cons in Ht as [->|Ht]); [by_bytes c..|].
  by apply elem_of_nil in Ht.
Qed.

Lemma EqualFold_Enforce (s : string) :
  EqualFold s Enforce = String.eqb (ToLower s) "enforce".
Proof.
  unfold Enforce.
  repeat (destruct s as [|? s]; [reflexivity|];
          cbn [EqualFold ToLower String.eqb];
          rewrite foldEq_lower by (repeat constructor);
          change (toLower "E") with "e"%char; change (toLower "n") with "n"%char;
          change (toLower "f") with "f"%char; change (toLower "o") with "o"%char;
          change (toLower "r") with "r"%char; change (toLower "c") with "c"%char;
          change (toLower "e") with "e"%char;
          destruct (Ascii.eqb _ _); [cbn [andb]|reflexivity]).
  destruct s; reflexivity.
Qed.

Lemma EqualFold_Enforce_iff (s : string) :
  EqualFold s Enforce = true ↔ ToLower s = "enforce".
Proof. rewrite EqualFold_Enforce. apply String.eqb_eq. Qed.



End strings_facts.

(** ** Sorting *)

Lemma ltb_false_le (a b : string) : String.ltb a b = false ↔ String.le b a.
Proof.
  unfold String.le, String.leb, String.ltb.
  rewrite (String.compare_antisym a b).
  destruct (String.compare b a); cbn; intuition congruence.
Qed.

(** Comparing one string field with [<] is a strict weak ordering. *)
Lemma StrictWeak_by_key {A} (key : A → string) :
  StrictWeak (λ a b, String.ltb (key a) (key b)).
Proof.
  split.
  - intros a b Hab. apply ltb_false_le. unfold String.le, String.leb.
    unfold String.ltb in Hab. by destruct (String.compare (key a) (key b)).
  - intros a b c Hab Hbc. apply ltb_false_le. apply ltb_false_le in Hab, Hbc.
    by etrans.
Qed.

Lemma NotAfter_by_key {A} (key : A → string) (a b : A) :
  NotAfter (λ a b, String.ltb (key a) (key b)) a b ↔ String.le (key a) (key b).
Proof. apply ltb_false_le. Qed.

Section insertion_sort.
Context {A : Type} (less : A → A → bool).

Lemma swapDown_perm (e : A) (rp : list A) : swapDown less e rp ≡ₚ e :: rp.
Proof.
  induction rp as [|p rp IH]; cbn; [done|].
  destruct (less e p); [|done]. rewrite IH. apply Permutation_swap.
Qed.

Lemma insertionSort_perm (x : list A) : insertionSort less x ≡ₚ x.
Proof.
  unfold insertionSort. rewrite reverse_Permutation.
  assert (∀ rp, fold_left (λ rp e, swapDown less e rp) x rp ≡ₚ x ++ rp) as H.
  { induction x as [|e x IH]; intros rp; cbn; [done|].
    rewrite IH, swapDown_perm. by rewrite Permutation_middle. }
  by rewrite H, app_nil_r.
Qed.

Lemma swapDown_sorted (e : A) (rp : list A) :
  (∀ a b, less a b = true → less b a = false) →
  Sorted (λ a b, less a b = false) rp →
  Sorted (λ a b, less a b = false) (swapDown less e rp).
Proof.
  intros Hasym. induction rp as [|p rp IH]; intros Hs; cbn.
  { repeat constructor. }
  destruct (less e p) eqn:Hep.
  - apply Sorted_inv in Hs as [Hs Hhd]. constructor; [by apply IH|].
    destruct rp as [|q rp]; cbn.
    + constructor. by apply Hasym.
    + apply HdRel_inv in Hhd. destruct (less e q); constructor; auto.
  - constructor; [done|]. by constructor.
Qed.

Lemma insertionSort_sorted (x : list A) :
  StrictWeak less → Sorted (NotAfter less) (insertionSort less x).
Proof.
  intros [Hasym _]. unfold insertionSort.
  apply (Sorted_reverse (λ a b, less a b = false)).
  assert (∀ rp, Sorted (λ a b, less a b = false) rp →
    Sorted (λ a b, less a b = false) (fold_left (λ rp e, swapDown less e rp) x rp)) as H.
  { induction x as [|e x IH]; intros rp Hs; cbn; [done|].
    by apply IH, swapDown_sorted. }
  apply H. constructor.
Qed.

End insertion_sort.

(** The sorter of short slices keeps the contract of [sort.Slice]. *)
Definition insertionSorter : SliceSorter :=
  {| sort_Slice := @insertionSort;
     sort_Slice_perm := @insertionSort_perm;
     sort_Slice_sorted := @insertionSort_sorted |}.

(** A slice sorted on a string field is ordered on it pairwise, and two
    sorted slices with the same elements show the same sequence of keys; so
    they are the same slice when no key occurs twice. *)
Lemma Sorted_rel_impl {A} (R1 R2 : relation A) (l : list A) :
  (∀ a b, R1 a b → R2 a b) → Sorted R1 l → Sorted R2 l.
Proof.
  intros HR. induction 1 as [|a l Hs IH Hhd]; constructor; [done|].
  destruct Hhd; constructor; auto.
Qed.

Lemma NoDup_fmap_inj_on {A B} (f : A → B) (l : list A) (a b : A) :
  NoDup (f <$> l) → a ∈ l → b ∈ l → f a = f b → a = b.
Proof.
  induction l as [|c l IH]; csimpl; intros Hnd Ha Hb Hab.
  { by apply elem_of_nil in Ha. }
  apply NoDup_cons in Hnd as [Hc Hnd].
  apply elem_of_cons in Ha as [->|Ha]; apply elem_of_cons in Hb as [->|Hb].
  - done.
  - destruct Hc. rewrite Hab. by apply list_elem_of_fmap_2.
  - destruct Hc. rewrite <- Hab. by apply list_elem_of_fmap_2.
  - by apply IH.
Qed.

Section sorted_by_key.
Context `{sorter : SliceSorter} {A : Type} (key : A → string).
Let less (a b : A) : bool := String.ltb (key a) (key b).

Lemma sort_Slice_by_key_sorted (x : list A) :
  StronglySorted (λ a b, String.le (key a) (key b)) (sort_Slice less x).
Proof.
  apply Sorted_StronglySorted.
  { intros a b c Hab Hbc. by etrans. }
  eapply Sorted_rel_impl; [|apply sort_Slice_sorted, StrictWeak_by_key].
  intros a b. apply NotAfter_by_key.
Qed.

Lemma sort_Slice_keys_sorted (x : list A) :
  StronglySorted String.le (key <$> sort_Slice less x).
Proof.
  apply (StronglySorted_fmap key (λ a b, String.le (key a) (key b))); [auto|].
  apply sort_Slice_by_key_sorted.
Qed.

Lemma sort_Slice_keys_perm (x y : list A) :
  x ≡ₚ y → key <$> sort_Slice less x = key <$> sort_Slice less y.
Proof.
  intros Hxy. apply (StronglySorted_unique String.le).
  - apply sort_Slice_keys_sorted.
  - apply sort_Slice_keys_sorted.
  - by rewrite !sort_Slice_perm, Hxy.
Qed.

Lemma sort_Slice_perm_unique (x y : list A) :
  x ≡ₚ y → NoDup (key <$> x) → sort_Slice less x = sort_Slice less y.
Proof.
  intros Hxy Hnd.
  apply (StronglySorted_unique_strong (λ a b, String.le (key a) (key b))).
  - intros a b Ha Hb Hab Hba.
    apply (NoDup_fmap_inj_on key x); [done|..].
    + by rewrite <- (sort_Slice_perm _ less x).
    + by rewrite Hxy, <- (sort_Slice_perm _ less y).
    + by apply (anti_symm String.le).
  - apply sort_Slice_by_key_sorted.
  - apply sort_Slice_by_key_sorted.
  - by rewrite !sort_Slice_perm.
Qed.

End sorted_by_key.

(** ** Enumerations of a map *)

Lemma RangeOrder_elements (m : decisionSet) : RangeOrder m (elements (dom m)).
Proof.
  split; [apply NoDup_elements|].
  intros dec. by rewrite elem_of_elements, elem_of_dom.
Qed.

Lemma RangeOrder_reverse (m : decisionSet) (order : list PlacementDecision) :
  RangeOrder m order → RangeOrder m (reverse order).
Proof.
  intros [Hnd Hin]. split; [by rewrite reverse_Permutation|].
  intros dec. by rewrite elem_of_reverse.
Qed.

(** Two enumerations, one the reverse of the other: two runs of the same
    [range] may differ this way. *)
Definition rangeForward : MapRange :=
  {| rangeKeys := λ m, elements (dom m);
     rangeKeys_order := RangeOrder_elements |}.

Definition rangeBackward : MapRange :=
  {| rangeKeys := λ m, reverse (elements (dom m));
     rangeKeys_order := λ m, RangeOrder_reverse m _ (RangeOrder_elements m) |}.

Lemma RangeOrder_empty (order : list PlacementDecision) :
  RangeOrder ∅ order → order = [].
Proof.
  intros [_ Hin]. destruct order as [|dec order]; [done|].
  destruct (proj1 (Hin dec)) as [? Hlook]; [by left|].
  by rewrite lookup_empty in Hlook.
Qed.

Lemma RangeOrder_perm (m : decisionSet) (o1 o2 : list PlacementDecision) :
  RangeOrder m o1 → RangeOrder m o2 → o1 ≡ₚ o2.
Proof.
  intros [Hnd1 Hin1] [Hnd2 Hin2]. apply NoDup_Permutation; [done..|].
  intros dec. by rewrite Hin1, Hin2.
Qed.

(** ** Merging the decisions of one binding *)

(** The override of a binding asks for enforcement. *)
Definition enforces (pb : PlacementBinding) : bool :=
  strings.EqualFold (RemediationAction (pbBindingOverrides pb)) Enforce.

Definition enforceOverride : BindingOverrides :=
  {| RemediationAction := strings.ToLower Enforce |}.

(** The record that [mergeDecision] leaves for a target of [pb], given
    what the map held for it. *)
Definition merged (pb : PlacementBinding) (held : option BindingOverrides)
    : BindingOverrides :=
  match held with
  | Some o => if enforces pb then enforceOverride else o
  | None => {| RemediationAction :=
                 strings.ToLower (RemediationAction (pbBindingOverrides pb)) |}
  end.

Lemma mergeDecision_lookup pb d dec dec' :
  mergeDecision pb d dec !! dec' =
    if decide (dec = dec') then Some (merged pb (d !! dec)) else d !! dec'.
Proof.
  unfold mergeDecision, merged, enforces, enforceOverride.
  destruct (d !! dec) as [o|] eqn:Hd.
  - destruct (strings.EqualFold _ _).
    + rewrite lookup_insert. by repeat case_decide.
    + case_decide; by subst.
  - rewrite lookup_insert. by repeat case_decide.
Qed.

Lemma merged_enforces pb held :
  enforces pb = true → merged pb held = enforceOverride.
Proof.
  intros Henf. unfold merged. rewrite Henf. destruct held; [done|].
  unfold enforceOverride. f_equal.
  by apply strings_facts.EqualFold_Enforce_iff in Henf as ->.
Qed.

Lemma merged_again pb held : merged pb (Some (merged pb held)) = merged pb held.
Proof.
  destruct (enforces pb) eqn:Henf.
  - by rewrite !merged_enforces.
  - unfold merged at 1. by rewrite Henf.
Qed.

Lemma foldl_mergeDecision_lookup pb ds d dec :
  foldl (mergeDecision pb) d ds !! dec =
    if bool_decide (dec ∈ ds) then Some (merged pb (d !! dec)) else d !! dec.
Proof.
  revert d. induction ds as [|a ds IH]; intros d; cbn [foldl].
  { rewrite bool_decide_eq_false_2; [done|]. apply not_elem_of_nil. }
  rewrite IH, mergeDecision_lookup.
  destruct (decide (a = dec)) as [->|Hne].
  - rewrite (bool_decide_eq_true_2 (dec ∈ dec :: ds)) by left.
    case_bool_decide; [by rewrite merged_again|done].
  - case_bool_decide as Hin.
    + by rewrite bool_decide_eq_true_2 by by right.
    + rewrite bool_decide_eq_false_2; [done|].
      intros [?|?]%elem_of_cons; by subst.
Qed.



(** The second loop only rewrites records that are there. *)
Lemma confirmDecision_step pb d found a :
  confirmDecision pb (d, found) a =
    match d !! a with
    | Some _ => (if enforces pb then <[a:=enforceOverride]> d else d, true)
    | None => (d, found)
    end.
Proof. reflexivity. Qed.

Lemma foldl_confirmDecision pb ds d found :
  dom (foldl (confirmDecision pb) (d, found) ds).1 = dom d ∧
  (foldl (confirmDecision pb) (d, found) ds).2
    = found || existsb (λ dec, bool_decide (dec ∈ dom d)) ds ∧
  ∀ dec o, d !! dec = Some o → RemediationAction o = "enforce" →
    ∃ o', (foldl (confirmDecision pb) (d, found) ds).1 !! dec = Some o'
          ∧ RemediationAction o' = "enforce".
Proof.
  revert d found. induction ds as [|a ds IH]; intros d found; cbn [foldl existsb].
  { cbn. rewrite orb_false_r. eauto. }
  rewrite confirmDecision_step.
  destruct (d !! a) as [o|] eqn:Ha.
  - assert (a ∈ dom d) as Hin by (apply elem_of_dom; eauto).
    rewrite (bool_decide_eq_true_2 _ Hin), orb_true_l, orb_true_r.
    destruct (enforces pb).
    + destruct (IH (<[a:=enforceOverride]> d) true) as (Hdom & Hfound & Hkeep).
      rewrite Hdom, Hfound, dom_insert_L.
      split; [by apply subseteq_union_1_L, singleton_subseteq_l|]. split; [done|].
      intros dec o' Hdec Ho'. destruct (decide (a = dec)) as [->|Hne].
      * apply (Hkeep dec enforceOverride); [by rewrite lookup_insert_eq|done].
      * apply (Hkeep dec o'); [by rewrite lookup_insert_ne|done].
    + destruct (IH d true) as (Hdom & Hfound & Hkeep). by rewrite Hfound.
  - assert (a ∉ dom d) as Hin by (by apply not_elem_of_dom).
    rewrite (bool_decide_eq_false_2 _ Hin), orb_false_l. apply IH.
Qed.

(** ** The two loops of the builder *)

(** The bindings the resolver was called on, in the order of the calls. *)
Definition invoked (cs : list Call) : list PlacementBinding :=
  omap (λ c, match c with CallResolve pb => Some pb | _ => None end) cs.

Definition isStatusUpdate (c : Call) : bool :=
  match c with CallStatusUpdate _ => true | _ => false end.

Definition isRestricted (pb : PlacementBinding) : bool :=
  String.eqb (SubFilter pb) Restricted.

Definition unrestricted (pbs : list PlacementBinding) : list PlacementBinding :=
  filter (λ pb, isRestricted pb = false) pbs.

Definition restricted (pbs : list PlacementBinding) : list PlacementBinding :=
  filter (λ pb, isRestricted pb = true) pbs.

Lemma invoked_app cs1 cs2 : invoked (cs1 ++ cs2) = invoked cs1 ++ invoked cs2.
Proof. apply omap_app. Qed.

Section builder.
Context (r : Client) `{sorter : SliceSorter} `{ranger : MapRange} (instance : Policy).

(** What the resolver answers for a binding. *)
Definition resolve (pb : PlacementBinding) : Resolved :=
  result (getPolicyPlacementDecisions r instance pb).
Definition targetsOf (pb : PlacementBinding) : list PlacementDecision := (resolve pb).1.1.
Definition placementsOf (pb : PlacementBinding) : list Placement := (resolve pb).1.2.
Definition errorOf (pb : PlacementBinding) : option error := (resolve pb).2.

(** The error of the first binding whose resolution fails. *)
Fixpoint firstError (pbs : list PlacementBinding) : option error :=
  match pbs with
  | [] => None
  | pb :: rest =>
      match errorOf pb with
      | Some err => Some err
      | None => firstError rest
      end
  end.

(** The bindings a loop gets to: all up to the first that fails. *)
Fixpoint attempted (pbs : list PlacementBinding) : list PlacementBinding :=
  match pbs with
  | [] => []
  | pb :: rest =>
      pb :: match errorOf pb with
            | Some _ => []
            | None => attempted rest
            end
  end.

Definition mergeAll (d : gmap PlacementDecision BindingOverrides)
    (pbs : list PlacementBinding) : gmap PlacementDecision BindingOverrides :=
  foldl (λ d pb, foldl (mergeDecision pb) d (targetsOf pb)) d pbs.

Definition placementsAll (pbs : list PlacementBinding) : list Placement :=
  pbs ≫= placementsOf.

(** A restricted binding is matched when one of its targets is decided. *)
Definition matches (D : gset PlacementDecision) (pb : PlacementBinding) : bool :=
  existsb (λ dec, bool_decide (dec ∈ D)) (targetsOf pb).

Definition confirmAll (d : gmap PlacementDecision BindingOverrides)
    (pbs : list PlacementBinding) : gmap PlacementDecision BindingOverrides :=
  foldl (λ d pb, (foldl (confirmDecision pb) (d, false) (targetsOf pb)).1) d pbs.

Definition matchedPlacements (D : gset PlacementDecision)
    (pbs : list PlacementBinding) : list Placement :=
  placementsAll (filter (λ pb, matches D pb = true) pbs).

Lemma resolver_invoked (pb : PlacementBinding) :
  invoked (calls (getPolicyPlacementDecisions r instance pb)) = [pb].
Proof.
  assert (∀ subjects st, invoked (calls (subjectsLoop r instance pb st subjects)) = [])
    as Hloop.
  { induction subjects as [|s subjects IH]; intros st; [done|].
    cbn [subjectsLoop]. rewrite calls_bind, invoked_app, IH, app_nil_r.
    unfold subjectStep.
    repeat (match goal with |- context [if ?b then _ else _] => destruct b end;
            try done).
    unfold isPolicyInPolicySet. rewrite !calls_bind. cbn.
    by destruct (storePolicySet r _). }
  assert (∀ ps, invoked (calls (resolvePlacementRef r pb ps)) = []) as Href.
  { intros ps. unfold resolvePlacementRef.
    repeat (match goal with
            | |- context [if ?b then _ else _] => destruct b
            | |- context [match storePlacementRule r ?k with _ => _ end] =>
                destruct (storePlacementRule r k)
            | |- context [match storePlacement r ?k with _ => _ end] =>
                destruct (storePlacement r k)
            end; cbn; try done). }
  unfold getPolicyPlacementDecisions.
  rewrite calls_bind, invoked_app. cbn [call calls result invoked omap].
  change (invoked ?x) with (invoked x). f_equal.
  destruct (negb _); [done|].
  rewrite calls_bind, invoked_app.
  change (omap _ ?x) with (invoked x). rewrite Hloop. cbn [app].
  case_bool_decide; [done|].
  rewrite calls_bind. change (omap _ ?x) with (invoked x).
  rewrite invoked_app, Href. cbn [app].
  destruct (result (resolvePlacementRef _ _ _)); [done|].
  case_bool_decide; [done|]. by destruct (Disabled instance).
Qed.

Lemma unrestrictedLoop_result items acc :
  result (unrestrictedLoop r instance items acc) =
    match firstError (unrestricted items) with
    | Some err => inl err
    | None => inr (mergeAll acc.1 (unrestricted items),
                   acc.2 ++ placementsAll (unrestricted items))
    end.
Proof.
  revert acc. induction items as [|pb items IH]; intros [d ps]; cbn [unrestrictedLoop].
  { cbn. by rewrite app_nil_r. }
  unfold unrestricted. rewrite filter_cons. fold (isRestricted pb).
  destruct (isRestricted pb) eqn:Hres.
  - rewrite decide_False by done. apply IH.
  - rewrite decide_True by done. rewrite result_bind.
    change (result (getPolicyPlacementDecisions r instance pb)) with (resolve pb).
    cbn [firstError mergeAll foldl placementsAll mbind list_bind].
    unfold errorOf, placementsOf, targetsOf.
    destruct (resolve pb) as [[plcDecisions plcPlacements] [err|]]; [done|].
    cbn [fst snd]. rewrite IH. fold (unrestricted items).
    destruct (firstError (unrestricted items)); [done|].
    cbn [fst snd]. by rewrite app_assoc.
Qed.

Lemma matchedPlacements_cons D pb pbs :
  matchedPlacements D (pb :: pbs) =
    (if matches D pb then placementsOf pb else []) ++ matchedPlacements D pbs.
Proof.
  unfold matchedPlacements. rewrite filter_cons.
  destruct (matches D pb); [by rewrite decide_True|by rewrite decide_False].
Qed.

Lemma restrictedLoop_result items acc :
  result (restrictedLoop r instance items acc) =
    match firstError (restricted items) with
    | Some err => inl err
    | None => inr (confirmAll acc.1 (restricted items),
                   acc.2 ++ matchedPlacements (dom acc.1) (restricted items))
    end.
Proof.
  revert acc. induction items as [|pb items IH]; intros [d ps]; cbn [restrictedLoop].
  { cbn. by rewrite app_nil_r. }
  unfold restricted. rewrite filter_cons. fold (isRestricted pb).
  destruct (isRestricted pb) eqn:Hres; cbn [negb].
  - rewrite decide_True by done. rewrite result_bind.
    change (result (getPolicyPlacementDecisions r instance pb)) with (resolve pb).
    fold (restricted items). rewrite matchedPlacements_cons.
    cbn [firstError confirmAll foldl]. unfold errorOf, matches, placementsOf, targetsOf.
    destruct (resolve pb) as [[plcDecisions plcPlacements] [err|]]; [done|].
    cbn [fst snd].
    destruct (foldl_confirmDecision pb plcDecisions d false) as (Hdom & Hfound & _).
    destruct (foldl (confirmDecision pb) (d, false) plcDecisions)
      as [decisions foundInDecisions].
    cbn [fst snd] in *. rewrite IH. cbn [fst snd]. rewrite Hdom.
    destruct (firstError (restricted items)); [done|].
    rewrite Hfound, orb_false_l.
    destruct (existsb _ plcDecisions); by rewrite <- ?app_assoc.
  - rewrite decide_False by done. apply IH.
Qed.

Lemma unrestrictedLoop_invoked items acc :
  invoked (calls (unrestrictedLoop r instance items acc))
    = attempted (unrestricted items).
Proof.
  revert acc. induction items as [|pb items IH]; intros acc; cbn [unrestrictedLoop].
  { done. }
  unfold unrestricted. rewrite filter_cons. fold (isRestricted pb).
  destruct (isRestricted pb) eqn:Hres.
  - rewrite decide_False by done. apply IH.
  - rewrite decide_True by done. rewrite calls_bind, invoked_app, resolver_invoked.
    change (result (getPolicyPlacementDecisions r instance pb)) with (resolve pb).
    cbn [attempted app]. unfold errorOf. f_equal.
    destruct (resolve pb) as [[plcDecisions plcPlacements] [err|]]; [done|].
    apply IH.
Qed.

Lemma restrictedLoop_invoked items acc :
  invoked (calls (restrictedLoop r instance items acc))
    = attempted (restricted items).
Proof.
  revert acc. induction items as [|pb items IH]; intros acc; cbn [restrictedLoop].
  { done. }
  unfold restricted. rewrite filter_cons. fold (isRestricted pb).
  destruct (isRestricted pb) eqn:Hres; cbn [negb].
  - rewrite decide_True by done. rewrite calls_bind, invoked_app, resolver_invoked.
    change (result (getPolicyPlacementDecisions r instance pb)) with (resolve pb).
    cbn [attempted app]. unfold errorOf. f_equal.
    destruct (resolve pb) as [[plcDecisions plcPlacements] [err|]]; [done|].
    cbn [snd]. destruct (foldl _ _ _). apply IH.
  - rewrite decide_False by done. apply IH.
Qed.

(** ** The builder, in one equation *)

Definition firstPass (pbList : list PlacementBinding)
    : gmap PlacementDecision BindingOverrides :=
  mergeAll ∅ (unrestricted pbList).

Lemma getAllClusterDecisions_result (pbList : list PlacementBinding) :
  result (getAllClusterDecisions r instance pbList) =
    match firstError (unrestricted pbList) with
    | Some err => (None, [], Some err)
    | None =>
        if bool_decide (size (firstPass pbList) = 0) then
          (None, sort_Slice byPlacementBinding (placementsAll (unrestricted pbList)), None)
        else
          match firstError (restricted pbList) with
          | Some err => (None, [], Some err)
          | None =>
              (Some (confirmAll (firstPass pbList) (restricted pbList)),
               sort_Slice byPlacementBinding
                 (placementsAll (unrestricted pbList)
                    ++ matchedPlacements (dom (firstPass pbList)) (restricted pbList)),
               None)
          end
    end.
Proof.
  unfold getAllClusterDecisions. rewrite result_bind, unrestrictedLoop_result.
  destruct (firstError (unrestricted pbList)); [done|].
  cbn [fst snd app]. fold (firstPass pbList).
  case_bool_decide; [done|].
  rewrite result_bind, restrictedLoop_result.
  by destruct (firstError (restricted pbList)).
Qed.

Lemma getAllClusterDecisions_invoked (pbList : list PlacementBinding) :
  invoked (calls (getAllClusterDecisions r instance pbList)) =
    attempted (unrestricted pbList) ++
    match firstError (unrestricted pbList) with
    | Some _ => []
    | None =>
        if bool_decide (size (firstPass pbList) = 0) then []
        else attempted (restricted pbList)
    end.
Proof.
  unfold getAllClusterDecisions.
  rewrite calls_bind, invoked_app, unrestrictedLoop_invoked, unrestrictedLoop_result.
  f_equal. destruct (firstError (unrestricted pbList)); [done|].
  cbn [fst snd app]. fold (firstPass pbList).
  case_bool_decide; [done|].
  rewrite calls_bind, invoked_app, restrictedLoop_invoked, restrictedLoop_result.
  rewrite <- (app_nil_r (attempted (restricted pbList))) at 2. f_equal.
  by destruct (firstError (restricted pbList)).
Qed.

(** ** What the loops leave in the map *)

Lemma mergeAll_dom d pbs dec :
  dec ∈ dom (mergeAll d pbs) ↔
  dec ∈ dom d ∨ ∃ pb, pb ∈ pbs ∧ dec ∈ targetsOf pb.
Proof.
  revert d. induction pbs as [|pb pbs IH]; intros d; cbn [mergeAll foldl].
  { split; [by left|]. intros [?|(pb & []%elem_of_nil & _)]. done. }
  fold (mergeAll (foldl (mergeDecision pb) d (targetsOf pb)) pbs). rewrite IH.
  rewrite !elem_of_dom, foldl_mergeDecision_lookup.
  case_bool_decide as Hin.
  - split.
    + intros [_|(pb' & Hpb' & Hdec)]; right; [exists pb|exists pb'];
        split; [by left|done|by right|done].
    + intros _. left. eauto.
  - split.
    + intros [?|(pb' & Hpb' & Hdec)]; [by left|]. right. exists pb'.
      split; [by right|done].
    + intros [?|(pb' & [->|Hpb']%elem_of_cons & Hdec)]; [by left|done|].
      right. eauto.
Qed.


Lemma confirmAll_dom d pbs : dom (confirmAll d pbs) = dom d.
Proof.
  revert d. induction pbs as [|pb pbs IH]; intros d; cbn [confirmAll foldl]; [done|].
  fold (confirmAll (foldl (confirmDecision pb) (d, false) (targetsOf pb)).1 pbs).
  rewrite IH. apply foldl_confirmDecision.
Qed.


Lemma restricted_all pbs :
  Forall (λ pb, isRestricted pb = true) pbs → unrestricted pbs = [].
Proof.
  induction 1 as [|pb pbs Hpb _ IH]; [done|].
  unfold unrestricted in *. rewrite filter_cons.
  by rewrite decide_False by congruence.
Qed.

Lemma elem_of_unrestricted pb pbs :
  pb ∈ unrestricted pbs ↔ isRestricted pb = false ∧ pb ∈ pbs.
Proof. unfold unrestricted. by rewrite list_elem_of_filter. Qed.

Lemma elem_of_restricted pb pbs :
  pb ∈ restricted pbs ↔ isRestricted pb = true ∧ pb ∈ pbs.
Proof. unfold restricted. by rewrite list_elem_of_filter. Qed.

Lemma firstError_None pbs :
  firstError pbs = None ↔ Forall (λ pb, errorOf pb = None) pbs.
Proof.
  induction pbs as [|pb pbs IH]; cbn [firstError]; [by split|].
  rewrite Forall_cons. destruct (errorOf pb).
  - split; [done|by intros [? _]].
  - rewrite IH. split; [done|by intros [_ ?]].
Qed.

Lemma firstError_Some pbs err :
  firstError pbs = Some err → ∃ pb, pb ∈ pbs ∧ errorOf pb = Some err.
Proof.
  induction pbs as [|pb pbs IH]; cbn [firstError]; [done|].
  destruct (errorOf pb) as [e|] eqn:Hpb.
  - intros [= ->]. exists pb. split; [by left|done].
  - intros (pb' & Hin & Herr)%IH. exists pb'. split; [by right|done].
Qed.

Lemma attempted_ok pbs : firstError pbs = None → attempted pbs = pbs.
Proof.
  induction pbs as [|pb pbs IH]; cbn [firstError attempted]; [done|].
  destruct (errorOf pb); [done|]. intros ?. f_equal. auto.
Qed.

Lemma attempted_error pbs pb err :
  pb ∈ attempted pbs → errorOf pb = Some err → firstError pbs = Some err.
Proof.
  induction pbs as [|pb' pbs IH]; cbn [firstError attempted].
  { by intros ?%elem_of_nil. }
  intros Hin Herr. destruct (errorOf pb') as [e|] eqn:Hpb'.
  - apply list_elem_of_singleton in Hin as ->. congruence.
  - apply elem_of_cons in Hin as [->|Hin]; [congruence|auto].
Qed.

Lemma elem_of_placementsAll p pbs :
  p ∈ placementsAll pbs ↔ ∃ pb, pb ∈ pbs ∧ p ∈ placementsOf pb.
Proof.
  unfold placementsAll. rewrite list_elem_of_bind.
  split; intros (pb & ? & ?); eauto.
Qed.

Lemma sort_Slice_nil {A} (less : A → A → bool) : sort_Slice less [] = [].
Proof. apply Permutation_nil_r, sort_Slice_perm. Qed.

(** ** The resolver *)

Definition noSubjects : subjectsState :=
  {| policySubjectFound := false; policySetSubjects := ∅; placementsSoFar := [] |}.

Definition invalidReference (pb : PlacementBinding) : error :=
  errors_New ("placement binding " +:+ pbName pb +:+ "/" +:+ pbNamespace pb
                +:+ " reference is not valid").

Lemma resolve_eq (pb : PlacementBinding) :
  resolve pb =
    if negb (common_HasValidPlacementRef r pb) then ([], [], Some (invalidReference pb))
    else
      let placements :=
        placementsSoFar (result (subjectsLoop r instance pb noSubjects (Subjects pb))) in
      if bool_decide (length placements = 0) then ([], [], None)
      else
        match result (resolvePlacementRef r pb placements) with
        | inl err => ([], [], Some err)
        | inr placements =>
            if bool_decide (length placements = 0) then ([], [], None)
            else if Disabled instance then ([], placements, None)
            else ((common_GetDecisions r pb).1, placements, (common_GetDecisions r pb).2)
        end.
Proof.
  unfold resolve, getPolicyPlacementDecisions. rewrite result_bind.
  destruct (negb _); [done|]. rewrite result_bind. cbn zeta.
  fold noSubjects. case_bool_decide; [done|]. rewrite result_bind.
  destruct (result (resolvePlacementRef _ _ _)); [done|].
  case_bool_decide; [done|]. by destruct (Disabled instance).
Qed.

(** A disabled policy is resolved to no target. *)
Lemma resolve_disabled (pb : PlacementBinding) :
  Disabled instance = true → targetsOf pb = [].
Proof.
  intros Hdis. unfold targetsOf. rewrite resolve_eq, Hdis.
  repeat (match goal with
          | |- context [if ?b then _ else _] => destruct b
          | |- context [match ?x with inl _ => _ | inr _ => _ end] => destruct x
          end; cbn; try done).
Qed.

(** A binding with an invalid reference is an error. *)
Lemma resolve_invalid (pb : PlacementBinding) :
  common_HasValidPlacementRef r pb = false →
  resolve pb = ([], [], Some (invalidReference pb)).
Proof. intros Hinv. by rewrite resolve_eq, Hinv. Qed.

(** A subject that names the policy itself. *)
Definition namesPolicy (s : Subject) : bool :=
  String.eqb (subjAPIGroup s) SchemeGroupVersion_Group
  && String.eqb (subjKind s) Kind
  && String.eqb (subjName s) (polName instance).

Lemma subjectStep_grows pb st s p :
  p ∈ placementsSoFar st →
  p ∈ placementsSoFar (result (subjectStep r instance pb st s)).
Proof.
  intros Hp. unfold subjectStep.
  repeat (match goal with |- context [if ?b then _ else _] => destruct b end;
          cbn; try done).
  all: apply elem_of_app; by left.
Qed.

Lemma subjectStep_found pb st s :
  (policySubjectFound st = true → newPlacement (pbName pb) "" ∈ placementsSoFar st) →
  policySubjectFound (result (subjectStep r instance pb st s)) = true →
  newPlacement (pbName pb) "" ∈ placementsSoFar (result (subjectStep r instance pb st s)).
Proof.
  intros Hinv. unfold subjectStep.
  repeat (match goal with |- context [if ?b then _ else _] => destruct b end;
          cbn; try done).
  - intros _. apply elem_of_app. right. by left.
  - intros Hfound. apply elem_of_app. left. auto.
Qed.

Lemma subjectStep_names pb st s :
  namesPolicy s = true →
  policySubjectFound (result (subjectStep r instance pb st s)) = true.
Proof.
  unfold namesPolicy, subjectStep.
  intros [[Hg Hk]%andb_true_iff Hname]%andb_true_iff. rewrite Hg, Hk, Hname. cbn.
  by destruct (policySubjectFound st) eqn:Hfound.
Qed.

Lemma subjectStep_keeps_found pb st s :
  policySubjectFound st = true →
  policySubjectFound (result (subjectStep r instance pb st s)) = true.
Proof.
  intros Hfound. unfold subjectStep.
  repeat (match goal with |- context [if ?b then _ else _] => destruct b end;
          cbn; try done).
Qed.

Lemma subjectsLoop_names pb subjects st :
  (policySubjectFound st = true → newPlacement (pbName pb) "" ∈ placementsSoFar st) →
  (policySubjectFound st = true ∨ ∃ s, s ∈ subjects ∧ namesPolicy s = true) →
  newPlacement (pbName pb) ""
    ∈ placementsSoFar (result (subjectsLoop r instance pb st subjects)).
Proof.
  revert st. induction subjects as [|s subjects IH]; intros st Hinv Hsome.
  { cbn. destruct Hsome as [?|(s & []%elem_of_nil & _)]. auto. }
  cbn [subjectsLoop]. rewrite result_bind. apply IH.
  - by apply subjectStep_found.
  - destruct Hsome as [Hfound|(s' & [->|Hs']%elem_of_cons & Hnames)].
    + left. by apply subjectStep_keeps_found.
    + left. by apply subjectStep_names.
    + right. eauto.
Qed.

Lemma resolvePlacementRef_keeps pb placements placements' p :
  result (resolvePlacementRef r pb placements) = inr placements' →
  p ∈ placements →
  ∃ p', p' ∈ placements' ∧ plPlacementBinding p' = plPlacementBinding p
        ∧ plPolicySet p' = plPolicySet p.
Proof.
  unfold resolvePlacementRef. intros Hres Hp.
  repeat (match type of Hres with
          | context [if ?b then _ else _] => destruct b
          | context [match storePlacementRule r ?k with _ => _ end] =>
              destruct (storePlacementRule r k)
          | context [match storePlacement r ?k with _ => _ end] =>
              destruct (storePlacement r k)
          end; cbn in Hres; try done);
    injection Hres as <-;
    try (eexists; split; [by apply list_elem_of_fmap_2|done]).
  by exists p.
Qed.

(** A binding that names the policy among its subjects and resolves without
    error yields a placement record under its own name. *)
Lemma resolve_names_policy (pb : PlacementBinding) :
  errorOf pb = None →
  common_HasValidPlacementRef r pb = true →
  (∃ s, s ∈ Subjects pb ∧ namesPolicy s = true) →
  ∃ p, p ∈ placementsOf pb ∧ plPlacementBinding p = pbName pb ∧ plPolicySet p = "".
Proof.
  intros Herr Hvalid Hsome. unfold errorOf, placementsOf in *.
  rewrite resolve_eq, Hvalid in *. cbn [negb] in *. cbn zeta in *.
  assert (newPlacement (pbName pb) ""
    ∈ placementsSoFar (result (subjectsLoop r instance pb noSubjects (Subjects pb))))
    as Hin.
  { apply subjectsLoop_names; [done|by right]. }
  case_bool_decide as Hlen.
  { apply nil_length_inv in Hlen. rewrite Hlen in Hin. by apply elem_of_nil in Hin. }
  destruct (result (resolvePlacementRef _ _ _)) as [err|placements] eqn:Href; [done|].
  destruct (resolvePlacementRef_keeps _ _ _ _ Href Hin) as (p' & Hp' & Hb & Hs).
  case_bool_decide as Hlen'.
  { apply nil_length_inv in Hlen'. subst. by apply elem_of_nil in Hp'. }
  by destruct (Disabled instance); exists p'.
Qed.

(** ** getDecisions *)

Lemma collect_decisions (m : gmap PlacementDecision BindingOverrides) :
  map_fold (λ dec _ (ds : decisionSet), <[dec := true]> ds) ∅ m = (λ _, true) <$> m.
Proof.
  apply (map_fold_weak_ind (λ (ds : decisionSet) m, ds = (λ _, true) <$> m)).
  - by rewrite fmap_empty.
  - intros dec o m' ds _ ->. by rewrite fmap_insert.
Qed.

(** What the builder answers for a list of bindings. *)
Definition build (pbList : list PlacementBinding) : Built :=
  result (getAllClusterDecisions r instance pbList).

Lemma getDecisions_result :
  result (getDecisions r instance) =
    match storeBindings r (polNamespace instance) with
    | inl err => ([], ∅, Some err)
    | inr pbList =>
        match result (getAllClusterDecisions r instance pbList) with
        | (_, placements, Some err) => (placements, ∅, Some err)
        | (allClusterDecisions, placements, None) =>
            (placements, (λ _, true) <$> default ∅ allClusterDecisions, None)
        end
    end.
Proof.
  unfold getDecisions. rewrite result_bind. cbn [List_PlacementBindings call result].
  destruct (storeBindings r (polNamespace instance)) as [err|pbList]; [done|].
  rewrite result_bind.
  change (result (getAllClusterDecisions r instance pbList)) with (build pbList).
  destruct (build pbList) as [[[m|] placements] [err|]];
    cbn [result mret M_ret]; by rewrite ?collect_decisions.
Qed.

(** ** Claims on the decision-set builder *)

(** C1. A target is in the decision map that [getAllClusterDecisions] returns
    only if a binding that is not restricted resolved it; and when every
    binding is restricted the builder returns no decision (Go's nil map) and
    no placement: restricted bindings confirm or override targets, they
    never introduce one. *)
Theorem restricted_bindings_never_introduce (pbList : list PlacementBinding) :
  (∀ decisions placements err dec overrides,
     result (getAllClusterDecisions r instance pbList) = (Some decisions, placements, err) →
     decisions !! dec = Some overrides →
     ∃ pb, pb ∈ pbList ∧ isRestricted pb = false ∧ errorOf pb = None
           ∧ dec ∈ targetsOf pb)
  ∧ (Forall (λ pb, isRestricted pb = true) pbList →
     result (getAllClusterDecisions r instance pbList) = (None, [], None)).
Proof.
  split.
  - intros decisions placements err dec overrides. rewrite getAllClusterDecisions_result.
    destruct (firstError (unrestricted pbList)) eqn:Hfirst; [done|].
    case_bool_decide; [done|].
    destruct (firstError (restricted pbList)); [done|].
    intros [= <- _ _] Hlook.
    assert (dec ∈ dom (confirmAll (firstPass pbList) (restricted pbList))) as Hdom
      by (apply elem_of_dom; eauto).
    rewrite confirmAll_dom in Hdom. apply mergeAll_dom in Hdom as [Hdom|Hdom].
    { by rewrite dom_empty_L in Hdom. }
    destruct Hdom as (pb & [Hres Hin]%elem_of_unrestricted & Hdec).
    exists pb. repeat split; [done..| |done].
    apply firstError_None in Hfirst. rewrite Forall_forall in Hfirst.
    apply Hfirst. by apply elem_of_unrestricted.
  - intros Hall. rewrite getAllClusterDecisions_result.
    unfold firstPass. rewrite (restricted_all _ Hall). cbn.
    rewrite bool_decide_eq_true_2 by apply map_size_empty.
    by rewrite sort_Slice_nil.
Qed.


Lemma firstError_elem pbs pb err :
  pb ∈ pbs → errorOf pb = Some err → ∃ err', firstError pbs = Some err'.
Proof.
  intros Hin Herr. destruct (firstError pbs) as [err'|] eqn:Hfirst; [eauto|].
  apply firstError_None in Hfirst. rewrite Forall_forall in Hfirst.
  specialize (Hfirst pb Hin). congruence.
Qed.

(** The three ways in which the resolver fails. *)
Lemma resolve_error_kinds (pb : PlacementBinding) (err : error) :
  errorOf pb = Some err →
  (common_HasValidPlacementRef r pb = false ∧ err = invalidReference pb)
  ∨ (∃ inner, IsNotFound inner = false ∧ Unwrap err = Some inner
       ∧ let refNN := {| Namespace := pbNamespace pb; Name := refName (PlacementRef pb) |} in
         storePlacementRule r refNN = Failed inner ∨ storePlacement r refNN = Failed inner)
  ∨ (Disabled instance = false ∧ (common_GetDecisions r pb).2 = Some err).
Proof.
  unfold errorOf. rewrite resolve_eq.
  destruct (common_HasValidPlacementRef r pb); cbn [negb]; cbn zeta.
  2: { intros [= <-]. by left. }
  case_bool_decide; [done|].
  destruct (result (resolvePlacementRef _ _ _)) as [e|placements] eqn:Href.
  - intros [= <-]. right. left. revert Href. unfold resolvePlacementRef.
    destruct (String.eqb _ "PlacementRule").
    + rewrite result_bind. cbn [Get_PlacementRule call result].
      destruct (storePlacementRule r _) as [plr|inner] eqn:Hget; [done|].
      destruct (IsNotFound inner) eqn:Hnf; [done|].
      intros [= <-]. exists inner. eauto.
    + destruct (String.eqb _ "Placement"); [|done].
      rewrite result_bind. cbn [Get_Placement call result].
      destruct (storePlacement r _) as [pl|inner] eqn:Hget; [done|].
      destruct (IsNotFound inner) eqn:Hnf; [done|].
      intros [= <-]. exists inner. eauto.
  - case_bool_decide; [done|]. destruct (Disabled instance); [done|].
    intros Herr. right. right. done.
Qed.

(** C6. When the loop over the unrestricted bindings leaves the map empty,
    the builder returns at once: no decision map, and the placements
    gathered so far sorted by binding name.  The second loop does not run:
    the builder issues the requests of the first loop and no other, the
    resolver is called on the unrestricted bindings only, and every
    placement returned comes from one of them. *)
Theorem empty_first_pass_skips_restricted (pbList : list PlacementBinding)
    (decisions : gmap PlacementDecision BindingOverrides) (placements : list Placement) :
  result (unrestrictedLoop r instance pbList (∅, [])) = inr (decisions, placements) →
  size decisions = 0 →
  result (getAllClusterDecisions r instance pbList)
    = (None, sort_Slice byPlacementBinding placements, None)
  ∧ StronglySorted String.le
      (plPlacementBinding <$> sort_Slice byPlacementBinding placements)
  ∧ calls (getAllClusterDecisions r instance pbList)
    = calls (unrestrictedLoop r instance pbList (∅, []))
  ∧ invoked (calls (getAllClusterDecisions r instance pbList)) = unrestricted pbList
  ∧ (∀ pb, pb ∈ invoked (calls (getAllClusterDecisions r instance pbList)) →
       isRestricted pb = false)
  ∧ (∀ p, p ∈ sort_Slice byPlacementBinding placements →
       ∃ pb, pb ∈ pbList ∧ isRestricted pb = false ∧ p ∈ placementsOf pb).
Proof.
  intros Hloop Hsize.
  assert (calls (getAllClusterDecisions r instance pbList)
          = calls (unrestrictedLoop r instance pbList (∅, []))) as Hcalls.
  { unfold getAllClusterDecisions. rewrite calls_bind.
    change (result (unrestrictedLoop r instance pbList (∅, [])))
      with (id (result (unrestrictedLoop r instance pbList (∅, [])))).
    unfold id at 1. rewrite Hloop. rewrite bool_decide_eq_true_2 by done.
    apply app_nil_r. }
  rewrite unrestrictedLoop_result in Hloop.
  destruct (firstError (unrestricted pbList)) eqn:Hfirst; [done|].
  cbn [fst snd app] in Hloop. injection Hloop as <- <-.
  assert (invoked (calls (getAllClusterDecisions r instance pbList))
          = unrestricted pbList) as Hinvoked.
  { by rewrite Hcalls, unrestrictedLoop_invoked, attempted_ok. }
  split; [|split; [|split; [|split; [|split]]]].
  - rewrite getAllClusterDecisions_result, Hfirst. unfold firstPass.
    by rewrite bool_decide_eq_true_2.
  - apply sort_Slice_keys_sorted.
  - done.
  - done.
  - intros pb. rewrite Hinvoked. by intros [? _]%elem_of_unrestricted.
  - intros p. rewrite sort_Slice_perm.
    intros (pb & [Hres Hin]%elem_of_unrestricted & Hp)%elem_of_placementsAll. eauto.
Qed.

(** C7. An error of the resolver aborts the build.  If the resolver is
    called on a binding, in either loop, and fails, the builder returns that
    error with no decision map and no placement; an unrestricted binding
    that fails always aborts the build, and so does a restricted one once
    the first loop has decided a target; and whenever the builder returns
    an error it is the error of one binding's resolution (which is of one
    of three kinds: an invalid reference, a lookup of the referenced object
    that failed otherwise than by not-found, a failed decision lookup) and
    nothing else is returned with it. *)
Theorem resolver_error_aborts_build (pbList : list PlacementBinding) :
  (∀ pb err,
     pb ∈ invoked (calls (getAllClusterDecisions r instance pbList)) →
     errorOf pb = Some err →
     result (getAllClusterDecisions r instance pbList) = (None, [], Some err))
  ∧ (∀ pb err,
       pb ∈ pbList → isRestricted pb = false → errorOf pb = Some err →
       ∃ err', result (getAllClusterDecisions r instance pbList) = (None, [], Some err'))
  ∧ (∀ pb err decisions placements,
       result (unrestrictedLoop r instance pbList (∅, [])) = inr (decisions, placements) →
       size decisions ≠ 0 →
       pb ∈ pbList → isRestricted pb = true → errorOf pb = Some err →
       ∃ err', result (getAllClusterDecisions r instance pbList) = (None, [], Some err'))
  ∧ (∀ err,
       (result (getAllClusterDecisions r instance pbList)).2 = Some err →
       result (getAllClusterDecisions r instance pbList) = (None, [], Some err)
       ∧ ∃ pb, pb ∈ pbList ∧ errorOf pb = Some err
           ∧ ((common_HasValidPlacementRef r pb = false ∧ err = invalidReference pb)
              ∨ (∃ inner, IsNotFound inner = false ∧ Unwrap err = Some inner)
              ∨ (common_GetDecisions r pb).2 = Some err)).
Proof.
  split; [|split; [|split]].
  - intros pb err. rewrite getAllClusterDecisions_invoked, getAllClusterDecisions_result.
    intros [Hin|Hin]%elem_of_app Herr.
    + by rewrite (attempted_error _ _ _ Hin Herr).
    + destruct (firstError (unrestricted pbList)); [by apply elem_of_nil in Hin|].
      case_bool_decide; [by apply elem_of_nil in Hin|].
      by rewrite (attempted_error _ _ _ Hin Herr).
  - intros pb err Hin Hres Herr. rewrite getAllClusterDecisions_result.
    destruct (firstError_elem (unrestricted pbList) pb err) as [err' ->];
      [by apply elem_of_unrestricted|done|eauto].
  - intros pb err decisions placements Hloop Hsize Hin Hres Herr.
    rewrite getAllClusterDecisions_result. rewrite unrestrictedLoop_result in Hloop.
    destruct (firstError (unrestricted pbList)); [done|].
    injection Hloop as <- _. fold (firstPass pbList) in Hsize.
    rewrite bool_decide_eq_false_2 by done.
    destruct (firstError_elem (restricted pbList) pb err) as [err' ->];
      [by apply elem_of_restricted|done|eauto].
  - intros err. rewrite getAllClusterDecisions_result.
    assert (∀ pbs, firstError pbs = Some err → (∀ pb, pb ∈ pbs → pb ∈ pbList) →
      ∃ pb, pb ∈ pbList ∧ errorOf pb = Some err
        ∧ ((common_HasValidPlacementRef r pb = false ∧ err = invalidReference pb)
           ∨ (∃ inner, IsNotFound inner = false ∧ Unwrap err = Some inner)
           ∨ (common_GetDecisions r pb).2 = Some err)) as Hkinds.
    { intros pbs (pb & Hin & Herr)%firstError_Some Hsub. exists pb.
      split; [auto|]. split; [done|].
      destruct (resolve_error_kinds pb err Herr)
        as [?|[(inner & ? & ? & _)|[_ ?]]]; eauto. }
    destruct (firstError (unrestricted pbList)) as [e|] eqn:Hfirst.
    { intros [= ->]. split; [done|]. apply (Hkinds _ Hfirst).
      by intros pb [_ ?]%elem_of_unrestricted. }
    case_bool_decide; [done|].
    destruct (firstError (restricted pbList)) as [e|] eqn:Hsecond; [|done].
    intros [= ->]. split; [done|]. apply (Hkinds _ Hsecond).
    by intros pb [_ ?]%elem_of_restricted.
Qed.

(** ** The per-cluster status *)

(** The entry appended for a target, and the error its lookup records. *)
Definition statusEntry (dec : PlacementDecision) : CompliancePerClusterStatus :=
  {| cpcsComplianceState :=
       match storePolicy r (replicaKey instance dec) with
       | Found replicatedPolicy => stComplianceState (Status replicatedPolicy)
       | Failed _ => ""
       end;
     cpcsClusterName := ClusterName dec;
     cpcsClusterNamespace := ClusterNamespace dec |}.

Definition lookupError (dec : PlacementDecision) : option error :=
  match storePolicy r (replicaKey instance dec) with
  | Found _ => None
  | Failed err => if IsNotFound err then None else Some err
  end.

Lemma statusStep_result st dec :
  result (statusStep r instance st dec) =
    (st.1 ++ [statusEntry dec],
     match lookupError dec with Some err => Some err | None => st.2 end).
Proof.
  unfold statusStep, statusEntry, lookupError. rewrite result_bind.
  cbn [Get_Policy call result].
  destruct (storePolicy r (replicaKey instance dec)) as [p|err]; [done|].
  by destruct (IsNotFound err).
Qed.

Lemma statusStep_calls st dec :
  calls (statusStep r instance st dec) = [CallGetPolicy (replicaKey instance dec)].
Proof.
  unfold statusStep. rewrite calls_bind. cbn [Get_Policy call result calls].
  destruct (storePolicy r (replicaKey instance dec)) as [p|err]; [done|].
  by destruct (IsNotFound err).
Qed.

Lemma statusLoop_result order st :
  result (statusLoop r instance st order) =
    (st.1 ++ (statusEntry <$> order),
     match last (omap lookupError order) with Some err => Some err | None => st.2 end).
Proof.
  revert st. induction order as [|dec order IH]; intros [status lookupErr].
  { cbn. by rewrite app_nil_r. }
  cbn [statusLoop]. rewrite result_bind, IH, statusStep_result. cbn [fst snd].
  rewrite <- app_assoc. f_equal. cbn [omap list_omap fmap list_fmap].
  fold (omap lookupError order).
  destruct (lookupError dec) as [err|]; [|done].
  rewrite last_cons. by destruct (last (omap lookupError order)).
Qed.

Lemma statusLoop_calls order st :
  calls (statusLoop r instance st order)
    = (λ dec, CallGetPolicy (replicaKey instance dec)) <$> order.
Proof.
  revert st. induction order as [|dec order IH]; intros st; [done|].
  cbn [statusLoop]. by rewrite calls_bind, IH, statusStep_calls.
Qed.

Lemma calculatePerClusterStatus_enabled (decisions : decisionSet) :
  Disabled instance = false →
  result (calculatePerClusterStatus r instance decisions) =
    (sort_Slice byClusterName (statusEntry <$> rangeKeys decisions),
     last (omap lookupError (rangeKeys decisions)))
  ∧ calls (calculatePerClusterStatus r instance decisions)
    = (λ dec, CallGetPolicy (replicaKey instance dec)) <$> rangeKeys decisions.
Proof.
  intros Hen. unfold calculatePerClusterStatus. rewrite Hen.
  rewrite result_bind, calls_bind, statusLoop_result, statusLoop_calls.
  cbn [fst snd app mret M_ret result calls]. split; [|by rewrite app_nil_r].
  by destruct (last _).
Qed.

Lemma calculatePerClusterStatus_disabled (decisions : decisionSet) :
  Disabled instance = true →
  calculatePerClusterStatus r instance decisions = mret ([], None).
Proof. intros Hdis. unfold calculatePerClusterStatus. by rewrite Hdis. Qed.

Lemma firstPass_disabled (pbList : list PlacementBinding) :
  Disabled instance = true → firstPass pbList = ∅.
Proof.
  intros Hdis. unfold firstPass. generalize (unrestricted pbList). intros pbs.
  induction pbs as [|pb pbs IH]; [done|].
  cbn [mergeAll foldl]. by rewrite (resolve_disabled pb Hdis).
Qed.

Lemma rangeKeys_length (decisions : decisionSet) :
  length (rangeKeys decisions) = size decisions.
Proof.
  rewrite <- (size_dom (D := gset PlacementDecision)).
  apply Permutation_length.
  apply (RangeOrder_perm decisions); [apply rangeKeys_order|apply RangeOrder_elements].
Qed.

Lemma omap_nil_iff {A B} (f : A → option B) (l : list A) :
  omap f l = [] ↔ ∀ a, a ∈ l → f a = None.
Proof.
  induction l as [|a l IH]; cbn [omap list_omap].
  { split; [by intros _ a ?%elem_of_nil|done]. }
  fold (omap f l). destruct (f a) as [b|] eqn:Ha.
  - split; [done|]. intros Hall. specialize (Hall a). rewrite Ha in Hall.
    discriminate Hall. by left.
  - rewrite IH. split.
    + intros Hall a' [->|?]%elem_of_cons; auto.
    + intros Hall a' Hin. apply Hall. by right.
Qed.

Lemma getDecisions_disabled :
  Disabled instance = true → (result (getDecisions r instance)).1.2 = ∅.
Proof.
  intros Hdis. rewrite getDecisions_result.
  destruct (storeBindings r (polNamespace instance)) as [err|pbList]; [done|].
  rewrite getAllClusterDecisions_result, (firstPass_disabled _ Hdis).
  destruct (firstError (unrestricted pbList)); [done|].
  rewrite bool_decide_eq_true_2 by apply map_size_empty. cbn.
  by rewrite fmap_empty.
Qed.

(** The controller writes only at the end of [rootStatusUpdate]. *)
Definition writes (cs : list Call) : list Call := filter (λ c, isStatusUpdate c = true) cs.

Lemma writes_app cs1 cs2 : writes (cs1 ++ cs2) = writes cs1 ++ writes cs2.
Proof. apply filter_app. Qed.

Lemma resolver_writes (pb : PlacementBinding) :
  writes (calls (getPolicyPlacementDecisions r instance pb)) = [].
Proof.
  assert (∀ subjects st, writes (calls (subjectsLoop r instance pb st subjects)) = [])
    as Hloop.
  { induction subjects as [|s subjects IH]; intros st; [done|].
    cbn [subjectsLoop]. rewrite calls_bind, writes_app, IH, app_nil_r.
    unfold subjectStep.
    repeat (match goal with |- context [if ?b then _ else _] => destruct b end;
            try done).
    unfold isPolicyInPolicySet. rewrite !calls_bind. cbn.
    by destruct (storePolicySet r _). }
  assert (∀ ps, writes (calls (resolvePlacementRef r pb ps)) = []) as Href.
  { intros ps. unfold resolvePlacementRef.
    repeat (match goal with
            | |- context [if ?b then _ else _] => destruct b
            | |- context [match storePlacementRule r ?k with _ => _ end] =>
                destruct (storePlacementRule r k)
            | |- context [match storePlacement r ?k with _ => _ end] =>
                destruct (storePlacement r k)
            end; cbn; try done). }
  unfold getPolicyPlacementDecisions.
  rewrite calls_bind, writes_app. cbn [call calls result app].
  change (writes [CallResolve pb]) with (@nil Call). cbn [app].
  destruct (negb _); [done|].
  rewrite calls_bind, writes_app, Hloop. cbn [app].
  case_bool_decide; [done|].
  rewrite calls_bind, writes_app, Href. cbn [app].
  destruct (result (resolvePlacementRef _ _ _)); [done|].
  case_bool_decide; [done|]. by destruct (Disabled instance).
Qed.

Lemma unrestrictedLoop_writes items acc :
  writes (calls (unrestrictedLoop r instance items acc)) = [].
Proof.
  revert acc. induction items as [|pb items IH]; intros acc; cbn [unrestrictedLoop].
  { done. }
  destruct (String.eqb _ _); [apply IH|].
  rewrite calls_bind, writes_app, resolver_writes. cbn [app].
  change (result (getPolicyPlacementDecisions r instance pb)) with (resolve pb).
  destruct (resolve pb) as [[plcDecisions plcPlacements] [err|]]; [done|]. apply IH.
Qed.

Lemma restrictedLoop_writes items acc :
  writes (calls (restrictedLoop r instance items acc)) = [].
Proof.
  revert acc. induction items as [|pb items IH]; intros acc; cbn [restrictedLoop].
  { done. }
  destruct (negb _); [apply IH|].
  rewrite calls_bind, writes_app, resolver_writes. cbn [app].
  change (result (getPolicyPlacementDecisions r instance pb)) with (resolve pb).
  destruct (resolve pb) as [[plcDecisions plcPlacements] [err|]]; [done|].
  cbn [snd]. destruct (foldl _ _ _). apply IH.
Qed.

Lemma getAllClusterDecisions_writes pbList :
  writes (calls (getAllClusterDecisions r instance pbList)) = [].
Proof.
  unfold getAllClusterDecisions. rewrite calls_bind, writes_app, unrestrictedLoop_writes.
  cbn [app]. rewrite unrestrictedLoop_result.
  destruct (firstError (unrestricted pbList)); [done|].
  case_bool_decide; [done|].
  rewrite calls_bind, writes_app, restrictedLoop_writes. cbn [app].
  rewrite restrictedLoop_result. by destruct (firstError (restricted pbList)).
Qed.

Lemma getDecisions_writes : writes (calls (getDecisions r instance)) = [].
Proof.
  unfold getDecisions. rewrite calls_bind, writes_app.
  cbn [List_PlacementBindings call calls result].
  change (writes [CallListBindings _]) with (@nil Call). cbn [app].
  destruct (storeBindings r (polNamespace instance)) as [err|pbList]; [done|].
  rewrite calls_bind, writes_app, getAllClusterDecisions_writes. cbn [app].
  change (result (getAllClusterDecisions r instance pbList)) with (build pbList).
  by destruct (build pbList) as [[[m|] placements] [err|]].
Qed.

(** ** Claims on the aggregation and on the writer *)

(** C4, as the code has it.  For a policy that is not disabled the
    aggregation goes through every target of the decision set and appends
    one entry for each: with the replica's compliance state when the replica
    is found, with an empty state when the lookup fails, by not-found or
    otherwise.  A not-found lookup is no error.  Of the other lookup errors
    the one returned at the end is that of the last failing lookup of the
    enumeration; none is returned exactly when every failed lookup is a
    not-found. *)
Theorem lookup_errors_do_not_abort (decisions : decisionSet) :
  Disabled instance = false →
  let out := result (calculatePerClusterStatus r instance decisions) in
  length out.1 = size decisions
  ∧ (∀ dec, is_Some (decisions !! dec) →
       match storePolicy r (replicaKey instance dec) with
       | Found replicatedPolicy =>
           {| cpcsComplianceState := stComplianceState (Status replicatedPolicy);
              cpcsClusterName := ClusterName dec;
              cpcsClusterNamespace := ClusterNamespace dec |} ∈ out.1
       | Failed _ =>
           {| cpcsComplianceState := "";
              cpcsClusterName := ClusterName dec;
              cpcsClusterNamespace := ClusterNamespace dec |} ∈ out.1
       end)
  ∧ out.2 = last (omap lookupError (rangeKeys decisions))
  ∧ (out.2 = None ↔
     ∀ dec err, is_Some (decisions !! dec) →
       storePolicy r (replicaKey instance dec) = Failed err → IsNotFound err = true).
Proof.
  intros Hen out. subst out.
  destruct (calculatePerClusterStatus_enabled decisions Hen) as [-> _]. cbn [fst snd].
  split; [|split; [|split]].
  - by rewrite sort_Slice_perm, length_fmap, rangeKeys_length.
  - intros dec Hdec. apply (rangeKeys_order decisions) in Hdec.
    apply (list_elem_of_fmap_2 statusEntry) in Hdec.
    rewrite <- (sort_Slice_perm _ byClusterName) in Hdec.
    unfold statusEntry in Hdec.
    by destruct (storePolicy r (replicaKey instance dec)).
  - done.
  - rewrite last_None, omap_nil_iff. split.
    + intros Hall dec err Hdec Hget. apply (rangeKeys_order decisions) in Hdec.
      specialize (Hall dec Hdec). unfold lookupError in Hall. rewrite Hget in Hall.
      by destruct (IsNotFound err).
    + intros Hall dec Hdec. apply (rangeKeys_order decisions) in Hdec.
      unfold lookupError.
      destruct (storePolicy r (replicaKey instance dec)) as [p|err] eqn:Hget; [done|].
      by rewrite (Hall dec err Hdec Hget).
Qed.

(** C5, as the code has it.  For a disabled policy the builder returns no
    decision map whatever the bindings, [getDecisions] returns the empty
    set, and the aggregation returns no entry and fetches nothing.  When the
    builder succeeds, the placements it returns are those of the bindings
    that are not restricted, sorted by binding name: each such binding with
    a valid reference that names the policy among its subjects has its
    record there.  (The restricted bindings are not reached, the first loop
    having decided no target.) *)
Theorem disabled_policy_keeps_unrestricted_placements (pbList : list PlacementBinding) :
  Disabled instance = true →
  (result (getAllClusterDecisions r instance pbList)).1.1 = None
  ∧ (result (getDecisions r instance)).1.2 = ∅
  ∧ (∀ decisions : decisionSet,
       result (calculatePerClusterStatus r instance decisions) = ([], None)
       ∧ calls (calculatePerClusterStatus r instance decisions) = [])
  ∧ (∀ placements,
       result (getAllClusterDecisions r instance pbList) = (None, placements, None) →
       placements = sort_Slice byPlacementBinding (placementsAll (unrestricted pbList))
       ∧ (∀ pb p, pb ∈ pbList → isRestricted pb = false → p ∈ placementsOf pb →
            p ∈ placements)
       ∧ (∀ pb, pb ∈ pbList → isRestricted pb = false →
            common_HasValidPlacementRef r pb = true →
            (∃ s, s ∈ Subjects pb ∧ namesPolicy s = true) →
            ∃ p, p ∈ placements ∧ plPlacementBinding p = pbName pb
                 ∧ plPolicySet p = "")).
Proof.
  intros Hdis. split; [|split; [|split]].
  - rewrite getAllClusterDecisions_result, (firstPass_disabled _ Hdis).
    destruct (firstError (unrestricted pbList)); [done|].
    by rewrite bool_decide_eq_true_2 by apply map_size_empty.
  - by apply getDecisions_disabled.
  - intros decisions. by rewrite (calculatePerClusterStatus_disabled _ Hdis).
  - intros placements. rewrite getAllClusterDecisions_result, (firstPass_disabled _ Hdis).
    destruct (firstError (unrestricted pbList)) eqn:Hfirst; [done|].
    rewrite bool_decide_eq_true_2 by apply map_size_empty. intros [= <-].
    assert (∀ pb p, pb ∈ pbList → isRestricted pb = false → p ∈ placementsOf pb →
      p ∈ sort_Slice byPlacementBinding (placementsAll (unrestricted pbList))) as Hin.
    { intros pb p Hpb Hres Hp. rewrite sort_Slice_perm.
      apply elem_of_placementsAll. exists pb. by rewrite elem_of_unrestricted. }
    split; [done|]. split; [done|].
    intros pb Hpb Hres Hvalid Hsubject.
    destruct (resolve_names_policy pb) as (p & Hp & Hname & Hset); [|done..|].
    { apply firstError_None in Hfirst. rewrite Forall_forall in Hfirst.
      apply Hfirst. by apply elem_of_unrestricted. }
    exists p. eauto.
Qed.

(** C8. The aggregation fetches, for each target of the decision set and in
    the order of the enumeration, the policy whose namespace is the target's
    cluster namespace and whose name is the root policy's namespace, a dot,
    and the root policy's name; it fetches nothing else.  This holds of the
    decision set that [getDecisions] computes for the policy, disabled or
    not, and of any decision set when the policy is not disabled; the
    enumeration names each target of the set once. *)
Theorem replica_fetched_at_derived_key :
  (∀ decisions : decisionSet,
     Disabled instance = false →
     calls (calculatePerClusterStatus r instance decisions) =
       (λ dec, CallGetPolicy {| Namespace := ClusterNamespace dec;
                                Name := polNamespace instance +:+ "." +:+ polName instance |})
         <$> rangeKeys decisions)
  ∧ calls (calculatePerClusterStatus r instance (result (getDecisions r instance)).1.2) =
      (λ dec, CallGetPolicy {| Namespace := ClusterNamespace dec;
                               Name := polNamespace instance +:+ "." +:+ polName instance |})
        <$> rangeKeys (result (getDecisions r instance)).1.2
  ∧ (∀ decisions : decisionSet,
       NoDup (rangeKeys decisions)
       ∧ ∀ dec, dec ∈ rangeKeys decisions ↔ is_Some (decisions !! dec)).
Proof.
  split; [|split].
  - intros decisions Hen. by destruct (calculatePerClusterStatus_enabled decisions Hen).
  - destruct (Disabled instance) eqn:Hdis.
    + rewrite (getDecisions_disabled Hdis).
      rewrite (calculatePerClusterStatus_disabled _ Hdis).
      by rewrite (RangeOrder_empty _ (rangeKeys_order ∅)).
    + by destruct (calculatePerClusterStatus_enabled
                     (result (getDecisions r instance)).1.2 Hdis).
  - intros decisions. apply rangeKeys_order.
Qed.

(** C10. When [getDecisions] fails, [rootStatusUpdate] returns the error
    made by [errors.New] from the text "could not get the placement
    decisions": that is its whole message and it wraps nothing, whatever the
    error underneath.  It issues the requests of [getDecisions] and no
    other, none of which is a status update. *)
Theorem decision_failure_gives_fixed_error (err : error) :
  (result (getDecisions r instance)).2 = Some err →
  result (rootStatusUpdate r instance)
    = Some (errors_New "could not get the placement decisions")
  ∧ Error <$> result (rootStatusUpdate r instance)
    = Some "could not get the placement decisions"
  ∧ Unwrap <$> result (rootStatusUpdate r instance) = Some None
  ∧ calls (rootStatusUpdate r instance) = calls (getDecisions r instance)
  ∧ writes (calls (rootStatusUpdate r instance)) = [].
Proof.
  intros Herr.
  assert (result (rootStatusUpdate r instance)
            = Some (errors_New "could not get the placement decisions")
          ∧ calls (rootStatusUpdate r instance) = calls (getDecisions r instance))
    as [Hres Hcalls].
  { unfold rootStatusUpdate. rewrite result_bind, calls_bind.
    destruct (result (getDecisions r instance)) as [[placements decisions] [e|]];
      [|done].
    split; [done|]. apply app_nil_r. }
  rewrite Hres, Hcalls. repeat split. apply getDecisions_writes.
Qed.

Lemma calculatePerClusterStatus_writes (decisions : decisionSet) :
  writes (calls (calculatePerClusterStatus r instance decisions)) = [].
Proof.
  unfold calculatePerClusterStatus. destruct (Disabled instance); [done|].
  rewrite calls_bind, statusLoop_calls, app_nil_r.
  induction (rangeKeys decisions) as [|dec order IH]; [done|].
  rewrite fmap_cons. unfold writes in *. by rewrite filter_cons, decide_False.
Qed.

(** The converse for the writer: when the decisions are computed, one status
    update is issued, the last request of the run. *)
Lemma rootStatusUpdate_writes_once :
  (result (getDecisions r instance)).2 = None →
  ∃ obj, writes (calls (rootStatusUpdate r instance)) = [CallStatusUpdate obj]
         ∧ result (rootStatusUpdate r instance) = storeStatusUpdate r obj.
Proof.
  intros Hok. unfold rootStatusUpdate. rewrite result_bind, calls_bind, writes_app.
  rewrite getDecisions_writes. cbn [app].
  destruct (result (getDecisions r instance)) as [[placements decisions] [e|]];
    [done|].
  rewrite !result_bind, !calls_bind, !writes_app.
  rewrite calculatePerClusterStatus_writes.
  cbn [app Get_Policy call calls result Status_Update].
  eexists. split; reflexivity.
Qed.

End builder.

(** ** Order of the outputs *)

Section determinism.
Context (r : Client) `{sorter : SliceSorter} (ranger ranger' : MapRange)
        (instance : Policy).

Lemma firstError_perm (pbs pbs' : list PlacementBinding) :
  pbs ≡ₚ pbs' →
  firstError r instance pbs = None ↔ firstError r instance pbs' = None.
Proof. intros Hperm. by rewrite !firstError_None, Hperm. Qed.

Lemma firstPass_dom_perm (pbList pbList' : list PlacementBinding) :
  pbList ≡ₚ pbList' →
  dom (firstPass r instance pbList) = dom (firstPass r instance pbList').
Proof.
  intros Hperm. apply set_eq. intros dec. unfold firstPass.
  rewrite !mergeAll_dom. unfold unrestricted.
  by setoid_rewrite Hperm.
Qed.

Lemma placementsAll_perm (pbs pbs' : list PlacementBinding) :
  pbs ≡ₚ pbs' → placementsAll r instance pbs ≡ₚ placementsAll r instance pbs'.
Proof. intros Hperm. unfold placementsAll. by rewrite Hperm. Qed.

(** What a successful build returns, up to the order of the bindings. *)
Lemma build_perm (pbList pbList' : list PlacementBinding) :
  pbList ≡ₚ pbList' →
  let out := result (getAllClusterDecisions r instance pbList) in
  let out' := result (getAllClusterDecisions r instance pbList') in
  (out.2 = None ↔ out'.2 = None)
  ∧ (out.2 = None →
     dom (default ∅ out.1.1) = dom (default ∅ out'.1.1)
     ∧ ∃ ps ps', ps ≡ₚ ps'
         ∧ out.1.2 = sort_Slice byPlacementBinding ps
         ∧ out'.1.2 = sort_Slice byPlacementBinding ps').
Proof.
  intros Hperm out out'. subst out out'. rewrite !getAllClusterDecisions_result.
  assert (unrestricted pbList ≡ₚ unrestricted pbList') as HU
    by (unfold unrestricted; by rewrite Hperm).
  assert (restricted pbList ≡ₚ restricted pbList') as HR
    by (unfold restricted; by rewrite Hperm).
  pose proof (firstError_perm _ _ HU) as HeU.
  pose proof (firstError_perm _ _ HR) as HeR.
  pose proof (firstPass_dom_perm _ _ Hperm) as Hdom.
  assert (size (firstPass r instance pbList) = 0
          ↔ size (firstPass r instance pbList') = 0) as Hsize.
  { by rewrite <- !(size_dom (D := gset PlacementDecision)), Hdom. }
  destruct (firstError r instance (unrestricted pbList)) as [e|];
    destruct (firstError r instance (unrestricted pbList')) as [e'|];
    try (cbn; by intuition).
  repeat case_bool_decide; try (exfalso; by intuition).
  - cbn. split; [done|]. intros _. split; [done|].
    eexists _, _. split; [|done]. by apply placementsAll_perm.
  - destruct (firstError r instance (restricted pbList)) as [e|];
      destruct (firstError r instance (restricted pbList')) as [e'|];
      try (cbn; by intuition).
    cbn. split; [done|]. intros _. split.
    { by rewrite !confirmAll_dom. }
    eexists _, _. split; [|done]. rewrite Hdom.
    apply Permutation_app; [by apply placementsAll_perm|].
    unfold matchedPlacements. apply placementsAll_perm. by rewrite HR.
Qed.

Lemma statusEntry_name (dec : PlacementDecision) :
  cpcsClusterName (statusEntry r instance dec) = ClusterName dec.
Proof. reflexivity. Qed.

(** C3, as the code has it.  The placements that the builder returns are in
    ascending order of binding name and the entries that the aggregation
    returns are in ascending order of cluster name.  Run again on the same
    bindings in another order, the builder succeeds or fails alike, decides
    the same targets and returns the same placements with the same sequence
    of binding names; run under another enumeration of the same decision
    set, the aggregation returns the same entries with the same sequence of
    cluster names.  The two slices are equal, position by position, when no
    binding name (no cluster name) occurs twice in them: [sort.Slice]
    compares that one field, and leaves entries that agree on it in an order
    that depends on the order of its input. *)
Theorem outputs_sorted_and_stable :
  (∀ pbList,
     StronglySorted String.le
       (plPlacementBinding <$> (result (getAllClusterDecisions r instance pbList)).1.2))
  ∧ (∀ decisions : decisionSet,
       StronglySorted String.le
         (cpcsClusterName
            <$> (result (@calculatePerClusterStatus r sorter ranger instance decisions)).1))
  ∧ (∀ pbList pbList',
       pbList ≡ₚ pbList' →
       let out := result (getAllClusterDecisions r instance pbList) in
       let out' := result (getAllClusterDecisions r instance pbList') in
       (out.2 = None ↔ out'.2 = None)
       ∧ (out.2 = None →
          dom (default ∅ out.1.1) = dom (default ∅ out'.1.1)
          ∧ out.1.2 ≡ₚ out'.1.2
          ∧ plPlacementBinding <$> out.1.2 = plPlacementBinding <$> out'.1.2
          ∧ (NoDup (plPlacementBinding <$> out.1.2) → out.1.2 = out'.1.2)))
  ∧ (∀ decisions : decisionSet,
       let out := result (@calculatePerClusterStatus r sorter ranger instance decisions) in
       let out' := result (@calculatePerClusterStatus r sorter ranger' instance decisions) in
       out.1 ≡ₚ out'.1
       ∧ cpcsClusterName <$> out.1 = cpcsClusterName <$> out'.1
       ∧ (NoDup (cpcsClusterName <$> out.1) → out.1 = out'.1)).
Proof.
  split; [|split; [|split]].
  - intros pbList. rewrite getAllClusterDecisions_result.
    repeat (match goal with |- context [match ?x with _ => _ end] => destruct x end;
            cbn [fst snd]; try apply sort_Slice_keys_sorted; try constructor).
  - intros decisions. destruct (Disabled instance) eqn:Hdis.
    + rewrite (@calculatePerClusterStatus_disabled r sorter ranger _ _ Hdis). constructor.
    + destruct (@calculatePerClusterStatus_enabled r sorter ranger instance decisions Hdis)
        as [-> _].
      apply sort_Slice_keys_sorted.
  - intros pbList pbList' Hperm out out'.
    destruct (build_perm pbList pbList' Hperm) as [Hiff Hok]. fold out out' in Hiff, Hok.
    split; [done|]. intros Hsucc.
    destruct (Hok Hsucc) as (Hdom & ps & ps' & Hps & -> & ->).
    split; [done|]. split; [by rewrite !sort_Slice_perm|].
    split; [by apply sort_Slice_keys_perm|].
    intros Hnd. apply sort_Slice_perm_unique; [done|].
    by rewrite sort_Slice_perm in Hnd.
  - intros decisions out out'. subst out out'.
    destruct (Disabled instance) eqn:Hdis.
    { by rewrite (@calculatePerClusterStatus_disabled r sorter ranger _ _ Hdis),
        (@calculatePerClusterStatus_disabled r sorter ranger' _ _ Hdis). }
    destruct (@calculatePerClusterStatus_enabled r sorter ranger instance decisions Hdis)
      as [-> _].
    destruct (@calculatePerClusterStatus_enabled r sorter ranger' instance decisions Hdis)
      as [-> _].
    cbn [fst].
    assert (statusEntry r instance <$> @rangeKeys ranger decisions
            ≡ₚ statusEntry r instance <$> @rangeKeys ranger' decisions) as Hperm.
    { apply fmap_Permutation, (RangeOrder_perm decisions); apply rangeKeys_order. }
    split; [by rewrite !sort_Slice_perm|].
    split; [by apply sort_Slice_keys_perm|].
    intros Hnd. apply sort_Slice_perm_unique; [done|].
    by rewrite sort_Slice_perm in Hnd.
Qed.

End determinism.

(** ** The lock of the root policy *)

(** One run of [Reconcile] takes the lock of its request first, releases it
    last, and does all the rest in between; its error is that of the part it
    runs under the lock. *)
Lemma Reconcile_brackets (r : Client) `{sorter : SliceSorter} `{ranger : MapRange}
    (request : NamespacedName) :
  calls (Reconcile r request)
    = CallLock request :: calls (reconcileLocked r request) ++ [CallUnlock request]
  ∧ result (Reconcile r request) = result (reconcileLocked r request).
Proof.
  unfold Reconcile. rewrite !calls_bind, !result_bind. by cbn.
Qed.

(** * A worked scenario

    One namespace with three bindings of the policy [ns/p]: [b1] and [b2]
    are unrestricted, [b3] is restricted; [b2] asks for enforcement.  The
    replica of the policy is compliant on [clusterA], not yet created on
    [clusterB], and unreadable (an API error other than not-found) on
    [clusterC] and [clusterD]. *)

Module scenario.

Definition notFound : error := mkError true "not found" None.
Definition timeout (cluster : string) : error :=
  mkError false ("timeout reaching " +:+ cluster) None.

Definition policy : Policy :=
  {| polName := "p"; polNamespace := "ns"; Disabled := false; Status := zeroPolicyStatus |}.

Definition disabledPolicy : Policy :=
  {| polName := "p"; polNamespace := "ns"; Disabled := true; Status := zeroPolicyStatus |}.

Definition policySubject : Subject :=
  {| subjAPIGroup := SchemeGroupVersion_Group; subjKind := Kind; subjName := "p" |}.

Definition binding (name rule subFilter action : string) : PlacementBinding :=
  {| pbName := name; pbNamespace := "ns";
     PlacementRef := {| refAPIGroup := "apps.open-cluster-management.io";
                        refKind := "PlacementRule"; refName := rule |};
     Subjects := [policySubject];
     SubFilter := subFilter;
     pbBindingOverrides := {| RemediationAction := action |} |}.

Definition b1 : PlacementBinding := binding "b1" "g1" "" "".
Definition b2 : PlacementBinding := binding "b2" "g2" "" "Enforce".
Definition b3 : PlacementBinding := binding "b3" "g3" Restricted "".

(** A binding whose reference is of no supported kind. *)
Definition broken : PlacementBinding :=
  {| pbName := "broken"; pbNamespace := "ns";
     PlacementRef := {| refAPIGroup := ""; refKind := "ConfigMap"; refName := "cm" |};
     Subjects := [policySubject];
     SubFilter := "";
     pbBindingOverrides := {| RemediationAction := "" |} |}.

Definition cluster (name : string) : PlacementDecision :=
  {| ClusterName := name; ClusterNamespace := name |}.

Definition client : Client :=
  {| storePolicySet := λ _, Failed notFound;
     storePlacementRule := λ key,
       if bool_decide (Name key ∈ ["g1"; "g2"; "g3"])
       then Found {| plrName := Name key |} else Failed notFound;
     storePlacement := λ _, Failed notFound;
     storePolicy := λ key,
       if String.eqb (Namespace key) "ns" && String.eqb (Name key) "p" then Found policy
       else if String.eqb (Namespace key) "clusterA" then
         Found {| polName := Name key; polNamespace := Namespace key; Disabled := false;
                  Status := {| stPlacement := []; stStatus := [];
                               stComplianceState := "Compliant" |} |}
       else if String.eqb (Namespace key) "clusterB" then Failed notFound
       else Failed (timeout (Namespace key));
     storeBindings := λ namespace,
       if String.eqb namespace "ns" then inr [b1; b2; b3]
       else inl (mkError false "the server is unavailable" None);
     storeStatusUpdate := λ _, None;
     common_HasValidPlacementRef := λ pb,
       String.eqb (refKind (PlacementRef pb)) "PlacementRule"
       || String.eqb (refKind (PlacementRef pb)) "Placement";
     common_GetDecisions := λ pb,
       (if String.eqb (pbName pb) "b1" then [cluster "clusterA"]
        else if String.eqb (pbName pb) "b2" then [cluster "clusterA"; cluster "clusterB"]
        else if String.eqb (pbName pb) "b3" then [cluster "clusterB"; cluster "clusterC"]
        else [], None);
     propagator_CalculateRootCompliance := λ cpcs,
       if forallb (λ s, String.eqb (cpcsComplianceState s) "Compliant") cpcs
       then "Compliant" else "NonCompliant" |}.

(** A restricted binding whose reference is of no supported kind. *)
Definition brokenRestricted : PlacementBinding :=
  {| pbName := "broken-restricted"; pbNamespace := "ns";
     PlacementRef := {| refAPIGroup := ""; refKind := "ConfigMap"; refName := "cm" |};
     Subjects := [policySubject];
     SubFilter := Restricted;
     pbBindingOverrides := {| RemediationAction := "" |} |}.

(** A policy of a namespace whose bindings cannot be listed. *)
Definition strayPolicy : Policy :=
  {| polName := "p"; polNamespace := "elsewhere"; Disabled := false;
     Status := zeroPolicyStatus |}.

Definition decided (targets : list PlacementDecision) : decisionSet :=
  list_to_map ((λ dec, (dec, true)) <$> targets).

(** Two targets of one cluster name in two cluster namespaces. *)
Definition twins : decisionSet :=
  decided [ {| ClusterName := "c1"; ClusterNamespace := "ns1" |};
            {| ClusterName := "c1"; ClusterNamespace := "ns2" |} ].

(** Two targets whose replicas are both unreadable. *)
Definition unreadable : decisionSet := decided [cluster "clusterC"; cluster "clusterD"].

Definition record (name rule : string) : Placement :=
  {| plPlacementBinding := name; plPlacement := ""; plPlacementRule := rule;
     plPolicySet := "" |}.

Definition entry (state name namespace : string) : CompliancePerClusterStatus :=
  {| cpcsComplianceState := state; cpcsClusterName := name;
     cpcsClusterNamespace := namespace |}.

#[local] Existing Instance insertionSorter.

(** The builder on the three bindings: [clusterA] comes from [b1] and is
    upgraded by [b2], [clusterB] comes from [b2]; [b3] matches [clusterB],
    so its record is kept, and its other target [clusterC] is not decided. *)
Example build_scenario :
  result (getAllClusterDecisions client policy [b1; b2; b3]) =
    (Some (<[cluster "clusterA" := {| RemediationAction := "enforce" |}]>
             (<[cluster "clusterB" := {| RemediationAction := "enforce" |}]> ∅)),
     [record "b1" "g1"; record "b2" "g2"; record "b3" "g3"],
     None).
Proof. vm_compute. reflexivity. Qed.

(** A restricted binding that matches no decided target leaves no record. *)
Example build_unmatched_restricted :
  result (getAllClusterDecisions client policy [b1; b3]) =
    (Some {[cluster "clusterA" := {| RemediationAction := "" |}]},
     [record "b1" "g1"],
     None).
Proof. vm_compute. reflexivity. Qed.

(** The bindings in another order: the same records, sorted. *)
Example build_reversed :
  (result (getAllClusterDecisions client policy [b3; b2; b1])).1.2
    = [record "b1" "g1"; record "b2" "g2"; record "b3" "g3"].
Proof. vm_compute. reflexivity. Qed.

Example status_scenario :
  result (@calculatePerClusterStatus client insertionSorter rangeBackward policy
            (decided [cluster "clusterC"; cluster "clusterB"; cluster "clusterA"]))
    = ([entry "Compliant" "clusterA" "clusterA"; entry "" "clusterB" "clusterB";
        entry "" "clusterC" "clusterC"],
       Some (timeout "clusterC")).
Proof. vm_compute. reflexivity. Qed.

(** One run of [Reconcile]: the requests in order, ending with the one
    status update, under the lock of the request. *)
Example reconcile_scenario :
  invoked (calls (@Reconcile client insertionSorter rangeForward
                    {| Namespace := "ns"; Name := "p" |})) = [b1; b2; b3]
  ∧ writes (calls (@Reconcile client insertionSorter rangeForward
                     {| Namespace := "ns"; Name := "p" |}))
    = [CallStatusUpdate
         {| polName := "p"; polNamespace := "ns"; Disabled := false;
            Status := {| stPlacement := [record "b1" "g1"; record "b2" "g2";
                                         record "b3" "g3"];
                         stStatus := [entry "Compliant" "clusterA" "clusterA";
                                      entry "" "clusterB" "clusterB"];
                         stComplianceState := "NonCompliant" |} |}].
Proof. split; vm_compute; reflexivity. Qed.

Lemma restricted_bindings_never_introduce_witness :
  (∃ pb, pb ∈ [b1; b2; b3] ∧ isRestricted pb = false
         ∧ errorOf client policy pb = None
         ∧ cluster "clusterB" ∈ targetsOf client policy pb)
  ∧ result (getAllClusterDecisions client policy [b3]) = (None, [], None).
Proof.
  split.
  - eapply (proj1 (restricted_bindings_never_introduce client policy [b1; b2; b3]));
      [reflexivity|vm_compute; reflexivity].
  - apply (proj2 (restricted_bindings_never_introduce client policy [b3])).
    repeat constructor.
Defined.


Lemma outputs_sorted_and_stable_witness :
  [b1; b2; b3] ≡ₚ [b3; b2; b1]
  ∧ (result (getAllClusterDecisions client policy [b1; b2; b3])).1.2
    = (result (getAllClusterDecisions client policy [b3; b2; b1])).1.2.
Proof.
  assert ([b1; b2; b3] ≡ₚ [b3; b2; b1]) as Hperm
    by exact (Permutation_sym (reverse_Permutation [b1; b2; b3])).
  split; [exact Hperm|].
  pose proof (outputs_sorted_and_stable client rangeForward rangeBackward policy)
    as (_ & _ & Hbindings & _).
  destruct (Hbindings [b1; b2; b3] [b3; b2; b1] Hperm) as [_ Hsame].
  destruct Hsame as (_ & _ & _ & Hequal); [vm_compute; reflexivity|].
  apply Hequal. apply (bool_decide_unpack _). vm_compute. exact I.
Defined.

Lemma outputs_sorted_and_stable_counterexample :
  result (@calculatePerClusterStatus client insertionSorter rangeForward policy twins)
    = ([entry "" "c1" "ns1"; entry "" "c1" "ns2"], Some (timeout "ns2"))
  ∧ result (@calculatePerClusterStatus client insertionSorter rangeBackward policy twins)
    = ([entry "" "c1" "ns2"; entry "" "c1" "ns1"], Some (timeout "ns1"))
  ∧ (result (@calculatePerClusterStatus client insertionSorter rangeForward policy twins)).1
    ≠ (result (@calculatePerClusterStatus client insertionSorter rangeBackward policy twins)).1.
Proof.
  split; [|split].
  - vm_compute. reflexivity.
  - vm_compute. reflexivity.
  - vm_compute. discriminate.
Qed.

Lemma lookup_errors_do_not_abort_witness :
  Disabled policy = false
  ∧ (result (@calculatePerClusterStatus client insertionSorter rangeForward policy
               unreadable)).2
    = last (omap (lookupError client policy) (@rangeKeys rangeForward unreadable)).
Proof.
  split; [reflexivity|].
  refine (proj1 (proj2 (proj2
    (@lookup_errors_do_not_abort client insertionSorter rangeForward policy
       unreadable _)))).
  reflexivity.
Defined.

Lemma lookup_errors_do_not_abort_counterexample :
  @rangeKeys rangeForward unreadable = [cluster "clusterC"; cluster "clusterD"]
  ∧ head (omap (lookupError client policy) (@rangeKeys rangeForward unreadable))
    = Some (timeout "clusterC")
  ∧ result (@calculatePerClusterStatus client insertionSorter rangeForward policy
              unreadable)
    = ([entry "" "clusterC" "clusterC"; entry "" "clusterD" "clusterD"],
       Some (timeout "clusterD"))
  ∧ (result (@calculatePerClusterStatus client insertionSorter rangeForward policy
               unreadable)).2
    ≠ head (omap (lookupError client policy) (@rangeKeys rangeForward unreadable)).
Proof.
  split; [|split; [|split]].
  - vm_compute. reflexivity.
  - vm_compute. reflexivity.
  - vm_compute. reflexivity.
  - vm_compute. discriminate.
Qed.

Lemma disabled_policy_keeps_unrestricted_placements_witness :
  Disabled disabledPolicy = true
  ∧ (result (getAllClusterDecisions client disabledPolicy [b1; b2; b3])).1.1 = None.
Proof.
  split; [reflexivity|].
  refine (proj1 (@disabled_policy_keeps_unrestricted_placements client insertionSorter
                   rangeForward disabledPolicy [b1; b2; b3] _)).
  reflexivity.
Defined.

Lemma disabled_policy_counterexample :
  Disabled disabledPolicy = true
  ∧ b3 ∈ [b1; b2; b3]
  ∧ policySubject ∈ Subjects b3
  ∧ namesPolicy disabledPolicy policySubject = true
  ∧ resolve client disabledPolicy b3 = ([], [record "b3" "g3"], None)
  ∧ result (getAllClusterDecisions client disabledPolicy [b1; b2; b3])
    = (None, [record "b1" "g1"; record "b2" "g2"], None)
  ∧ ¬ ∃ p, p ∈ (result (getAllClusterDecisions client disabledPolicy [b1; b2; b3])).1.2
           ∧ plPlacementBinding p = pbName b3.
Proof.
  split; [reflexivity|]. split; [right; right; left|]. split; [left|].
  split; [by vm_compute|]. split; [by vm_compute|]. split; [by vm_compute|].
  intros (p & Hp & Hname). vm_compute in Hp.
  apply elem_of_cons in Hp as [->|Hp]; [discriminate Hname|].
  apply elem_of_cons in Hp as [->|Hp]; [discriminate Hname|].
  by apply elem_of_nil in Hp.
Qed.

Lemma empty_first_pass_skips_restricted_witness :
  result (unrestrictedLoop client disabledPolicy [b1; b3; brokenRestricted] (∅, []))
    = inr (∅, [record "b1" "g1"])
  ∧ result (getAllClusterDecisions client disabledPolicy [b1; b3; brokenRestricted])
    = (None, sort_Slice byPlacementBinding [record "b1" "g1"], None)
  ∧ invoked (calls (getAllClusterDecisions client disabledPolicy
                      [b1; b3; brokenRestricted])) = [b1].
Proof.
  assert (result (unrestrictedLoop client disabledPolicy [b1; b3; brokenRestricted]
                    (∅, [])) = inr (∅, [record "b1" "g1"])) as Hloop
    by (vm_compute; reflexivity).
  split; [exact Hloop|].
  pose proof (empty_first_pass_skips_restricted client disabledPolicy
                [b1; b3; brokenRestricted] ∅ [record "b1" "g1"] Hloop eq_refl)
    as (Hres & _ & _ & Hinvoked & _).
  split; [exact Hres|exact Hinvoked].
Defined.

Lemma resolver_error_aborts_build_witness :
  broken ∈ invoked (calls (getAllClusterDecisions client policy [b1; broken; b2]))
  ∧ errorOf client policy broken = Some (invalidReference broken)
  ∧ result (getAllClusterDecisions client policy [b1; broken; b2])
    = (None, [], Some (invalidReference broken)).
Proof.
  assert (broken ∈ invoked (calls (getAllClusterDecisions client policy
                                     [b1; broken; b2]))) as Hin.
  { vm_compute. right. left. }
  split; [exact Hin|]. split; [reflexivity|].
  exact (proj1 (resolver_error_aborts_build client policy [b1; broken; b2])
           broken (invalidReference broken) Hin eq_refl).
Defined.

Lemma replica_fetched_at_derived_key_witness :
  Disabled policy = false
  ∧ calls (@calculatePerClusterStatus client insertionSorter rangeForward policy
             (decided [cluster "clusterA"; cluster "clusterB"]))
    = [CallGetPolicy {| Namespace := "clusterA"; Name := "ns.p" |};
       CallGetPolicy {| Namespace := "clusterB"; Name := "ns.p" |}].
Proof.
  split; [reflexivity|].
  rewrite (proj1 (@replica_fetched_at_derived_key client insertionSorter rangeForward
                    policy) (decided [cluster "clusterA"; cluster "clusterB"]) eq_refl).
  vm_compute. reflexivity.
Defined.

Lemma decision_failure_gives_fixed_error_witness :
  (result (getDecisions client strayPolicy)).2
    = Some (mkError false "the server is unavailable" None)
  ∧ result (@rootStatusUpdate client insertionSorter rangeForward strayPolicy)
    = Some (errors_New "could not get the placement decisions")
  ∧ writes (calls (@rootStatusUpdate client insertionSorter rangeForward strayPolicy)) = [].
Proof.
  assert ((result (getDecisions client strayPolicy)).2
          = Some (mkError false "the server is unavailable" None)) as Herr
    by reflexivity.
  split; [exact Herr|].
  pose proof (@decision_failure_gives_fixed_error client insertionSorter rangeForward
                strayPolicy _ Herr) as (Hres & _ & _ & _ & Hwrites).
  split; [exact Hres|exact Hwrites].
Defined.

End scenario.

(** * Further properties of the controller *)

Lemma M_eq {A} (m1 m2 : M A) :
  result m1 = result m2 → calls m1 = calls m2 → m1 = m2.
Proof. destruct m1, m2. cbn. by intros -> ->. Qed.

(** The policy sets whose membership list a run fetched, and whether it
    asked for the decisions of a binding. *)
Definition policySetRequests (cs : list Call) : list NamespacedName :=
  omap (λ c, match c with CallGetPolicySet key => Some key | _ => None end) cs.

Definition decisionRequests (cs : list Call) : list PlacementBinding :=
  omap (λ c, match c with CallGetDecisions pb => Some pb | _ => None end) cs.

(** A request that reads: every request but a status update, and neither
    end of the lock. *)
Definition isRead (c : Call) : bool :=
  match c with
  | CallStatusUpdate _ | CallLock _ | CallUnlock _ => false
  | _ => true
  end.

(** ** The loop over the subjects of a binding *)

Section subjects.
Context (r : Client) (instance : Policy) (pb : PlacementBinding).

(** The policy is a member of the policy set of that name, as far as
    [isPolicyInPolicySet] can tell. *)
Definition memberOf (policySetName : string) : bool :=
  result (isPolicyInPolicySet r (polName instance) policySetName (pbNamespace pb)).

Definition isPolicySetSubject (s : Subject) : bool :=
  String.eqb (subjAPIGroup s) SchemeGroupVersion_Group
  && String.eqb (subjKind s) PolicySetKind.

(** A subject on which a turn of the loop does nothing, in state [st]. *)
Definition absorbs (st : subjectsState) (s : Subject) : bool :=
  negb (String.eqb (subjAPIGroup s) SchemeGroupVersion_Group)
  || (if String.eqb (subjKind s) Kind
      then policySubjectFound st || negb (String.eqb (subjName s) (polName instance))
      else if String.eqb (subjKind s) PolicySetKind
           then bool_decide (subjName s ∈ policySetSubjects st)
           else true).

(** The three things a turn of the loop can do: nothing; note the policy
    subject; look a policy set up. *)
Lemma subjectStep_cases (st : subjectsState) (s : Subject) :
  (absorbs st s = true ∧ subjectStep r instance pb st s = mret st)
  ∨ (policySubjectFound st = false ∧ namesPolicy instance s = true
     ∧ subjectStep r instance pb st s =
         mret {| policySubjectFound := true;
                 policySetSubjects := policySetSubjects st;
                 placementsSoFar := placementsSoFar st ++ [newPlacement (pbName pb) ""] |})
  ∨ (isPolicySetSubject s = true ∧ (subjName s ∉ policySetSubjects st)
     ∧ subjectStep r instance pb st s =
         mkM {| policySubjectFound := policySubjectFound st;
                policySetSubjects := {[subjName s]} ∪ policySetSubjects st;
                placementsSoFar :=
                  if memberOf (subjName s)
                  then placementsSoFar st ++ [newPlacement (pbName pb) (subjName s)]
                  else placementsSoFar st |}
             [CallGetPolicySet {| Namespace := pbNamespace pb; Name := subjName s |}]).
Proof.
  unfold absorbs, subjectStep, namesPolicy, isPolicySetSubject.
  destruct (String.eqb (subjAPIGroup s) _); cbn [negb andb orb]; [|by left].
  destruct (String.eqb (subjKind s) Kind) eqn:Hkind.
  { destruct (policySubjectFound st) eqn:Hfound; cbn [negb andb orb]; [by left|].
    destruct (String.eqb (subjName s) _); [|by left]. right. left. done. }
  destruct (String.eqb (subjKind s) PolicySetKind); [|by left].
  case_bool_decide as Hin; [by left|]. right. right.
  split; [done|]. split; [done|]. apply M_eq; [done|].
  unfold isPolicyInPolicySet. rewrite !calls_bind. cbn.
  by destruct (storePolicySet r _).
Qed.

Lemma absorbs_step st s :
  absorbs st s = true → subjectStep r instance pb st s = mret st.
Proof.
  unfold absorbs, subjectStep.
  destruct (String.eqb (subjAPIGroup s) _); cbn [negb orb]; [|done].
  destruct (String.eqb (subjKind s) Kind).
  { destruct (policySubjectFound st); cbn [negb orb andb]; [done|].
    by destruct (String.eqb (subjName s) _). }
  destruct (String.eqb (subjKind s) PolicySetKind); [|done].
  by intros ->.
Qed.

Lemma absorbs_mono st s s' :
  absorbs st s = true → absorbs (result (subjectStep r instance pb st s')) s = true.
Proof.
  intros Hs.
  destruct (subjectStep_cases st s') as [[_ ->]|[(_ & _ & ->)|(_ & _ & ->)]];
    [done|..]; revert Hs; unfold absorbs; cbn [result policySubjectFound policySetSubjects];
    destruct (String.eqb (subjAPIGroup s) _); cbn [negb orb]; try done;
    destruct (String.eqb (subjKind s) Kind); try done;
    try (intros _; reflexivity);
    destruct (String.eqb (subjKind s) PolicySetKind); try done.
  intros Hin%bool_decide_eq_true. apply bool_decide_eq_true. set_solver.
Qed.

Lemma step_absorbs st s : absorbs (result (subjectStep r instance pb st s)) s = true.
Proof.
  unfold absorbs, subjectStep.
  destruct (String.eqb (subjAPIGroup s) _); cbn [negb orb]; [|done].
  destruct (String.eqb (subjKind s) Kind).
  { destruct (policySubjectFound st) eqn:Hfound; cbn [negb andb].
    - cbn. by rewrite Hfound.
    - destruct (String.eqb (subjName s) _); cbn; [done|]. by rewrite Hfound. }
  destruct (String.eqb (subjKind s) PolicySetKind); [|done].
  destruct (decide (subjName s ∈ policySetSubjects st)) as [Hin|Hin].
  - rewrite (bool_decide_eq_true_2 _ Hin). cbn. by apply bool_decide_eq_true.
  - rewrite (bool_decide_eq_false_2 _ Hin). cbn. apply bool_decide_eq_true.
    set_solver.
Qed.

Lemma subjectsLoop_app st l1 l2 :
  subjectsLoop r instance pb st (l1 ++ l2) =
    subjectsLoop r instance pb st l1 ≫= λ st', subjectsLoop r instance pb st' l2.
Proof.
  revert st. induction l1 as [|s l1 IH]; intros st.
  { by apply M_eq. }
  cbn [app subjectsLoop]. apply M_eq.
  - by rewrite !result_bind, IH, result_bind.
  - by rewrite !calls_bind, !result_bind, IH, calls_bind, app_assoc.
Qed.

Lemma subjectsLoop_absorbs st l s :
  absorbs st s = true ∨ s ∈ l →
  absorbs (result (subjectsLoop r instance pb st l)) s = true.
Proof.
  revert st. induction l as [|s' l IH]; intros st Hs.
  { by destruct Hs as [?|?%elem_of_nil]. }
  cbn [subjectsLoop]. rewrite result_bind. apply IH.
  destruct Hs as [Hs|[->|Hs]%elem_of_cons]; [left|left|by right].
  - by apply absorbs_mono.
  - apply step_absorbs.
Qed.

End subjects.

(** ** What the subjects of a binding contribute *)

Section records.
Context (r : Client) (instance : Policy) (pb : PlacementBinding).

(** The record that a subject stands for: the policy's own, or that of a
    policy set of which the policy is a member. *)
Definition recordOf (s : Subject) (p : Placement) : Prop :=
  (namesPolicy instance s = true ∧ p = newPlacement (pbName pb) "")
  ∨ (isPolicySetSubject s = true ∧ memberOf r instance pb (subjName s) = true
     ∧ p = newPlacement (pbName pb) (subjName s)).

(** The locals of the loop agree: what is marked as seen is recorded. *)
Definition recorded (st : subjectsState) : Prop :=
  (policySubjectFound st = true → newPlacement (pbName pb) "" ∈ placementsSoFar st)
  ∧ ∀ n, n ∈ policySetSubjects st → memberOf r instance pb n = true →
      newPlacement (pbName pb) n ∈ placementsSoFar st.

Lemma recorded_noSubjects : recorded noSubjects.
Proof. split; [done|]. by intros n ?%elem_of_empty. Qed.

Lemma kinds_differ : String.eqb PolicySetKind Kind = false.
Proof. reflexivity. Qed.

Lemma namesPolicy_inv s :
  namesPolicy instance s = true →
  String.eqb (subjAPIGroup s) SchemeGroupVersion_Group = true
  ∧ String.eqb (subjKind s) Kind = true
  ∧ String.eqb (subjName s) (polName instance) = true.
Proof.
  unfold namesPolicy. by intros [[? ?]%andb_true_iff ?]%andb_true_iff.
Qed.

Lemma isPolicySetSubject_inv s :
  isPolicySetSubject s = true →
  String.eqb (subjAPIGroup s) SchemeGroupVersion_Group = true
  ∧ String.eqb (subjKind s) Kind = false
  ∧ String.eqb (subjKind s) PolicySetKind = true.
Proof.
  unfold isPolicySetSubject. intros [Hg Hk]%andb_true_iff.
  split; [done|]. split; [|done].
  apply String.eqb_eq in Hk. rewrite Hk. apply kinds_differ.
Qed.

Lemma subjectStep_records st s :
  recorded st →
  recorded (result (subjectStep r instance pb st s))
  ∧ ∀ p, p ∈ placementsSoFar (result (subjectStep r instance pb st s)) ↔
         p ∈ placementsSoFar st ∨ recordOf s p.
Proof.
  intros [Hfound Hsets].
  destruct (subjectStep_cases r instance pb st s)
    as [[Habs ->]|[(Hnot & Hnames & ->)|(Hset & Hnew & ->)]];
    cbn [result mret M_ret policySubjectFound policySetSubjects placementsSoFar].
  - split; [done|]. intros p. split; [by left|].
    intros [?|[[Hnames ->]|(Hset & Hmem & ->)]]; [done|..].
    + apply namesPolicy_inv in Hnames as (Hg & Hk & Hn).
      unfold absorbs in Habs. rewrite Hg, Hk, Hn in Habs. cbn in Habs.
      rewrite orb_false_r in Habs. auto.
    + apply isPolicySetSubject_inv in Hset as (Hg & Hk & Hk').
      unfold absorbs in Habs. rewrite Hg, Hk, Hk' in Habs. cbn in Habs.
      apply bool_decide_eq_true in Habs. auto.
  - split.
    + split.
      * intros _. apply elem_of_app. right. by left.
      * intros n Hn Hmem. apply elem_of_app. left. auto.
    + intros p. rewrite elem_of_app, list_elem_of_singleton. split.
      * intros [?| ->]; [by left|]. right. by left.
      * intros [?|[[_ ->]|(Hset & _)]]; [by left|by right|].
        apply isPolicySetSubject_inv in Hset as (_ & Hk & _).
        apply namesPolicy_inv in Hnames as (_ & Hk' & _). congruence.
  - assert (∀ p, p ∈ placementsSoFar st →
              p ∈ (if memberOf r instance pb (subjName s)
                   then placementsSoFar st ++ [newPlacement (pbName pb) (subjName s)]
                   else placementsSoFar st)) as Hkeep.
    { intros p Hp. destruct (memberOf _ _ _ _); [|done]. apply elem_of_app. by left. }
    split.
    + split; [by auto|].
      intros n [->%elem_of_singleton|Hn]%elem_of_union Hmem; [|by auto].
      rewrite Hmem. apply elem_of_app. right. by left.
    + intros p. split.
      * destruct (memberOf r instance pb (subjName s)) eqn:Hmem; [|by left].
        intros [?| ->%list_elem_of_singleton]%elem_of_app; [by left|].
        right. right. done.
      * intros [?|[[Hnames _]|(_ & Hmem & ->)]]; [by auto|..].
        -- apply isPolicySetSubject_inv in Hset as (_ & Hk & _).
           apply namesPolicy_inv in Hnames as (_ & Hk' & _). congruence.
        -- rewrite Hmem. apply elem_of_app. right. by left.
Qed.

Lemma subjectsLoop_records st subjects :
  recorded st →
  ∀ p, p ∈ placementsSoFar (result (subjectsLoop r instance pb st subjects)) ↔
       p ∈ placementsSoFar st ∨ ∃ s, s ∈ subjects ∧ recordOf s p.
Proof.
  revert st. induction subjects as [|s subjects IH]; intros st Hst p.
  { cbn. split; [by left|]. by intros [?|(s & ?%elem_of_nil & _)]. }
  cbn [subjectsLoop]. rewrite result_bind.
  destruct (subjectStep_records st s Hst) as [Hst' Hstep].
  rewrite (IH _ Hst'), Hstep. split.
  - intros [[?|?]|(s' & ? & ?)]; [by left|right..].
    + exists s. split; [by left|done].
    + exists s'. split; [by right|done].
  - intros [?|(s' & [->|?]%elem_of_cons & ?)]; [by left; left|by left; right|].
    right. eauto.
Qed.

(** The policy sets the loop looks up: each one once, in the namespace of
    the binding, and each for a subject of the kind. *)
Lemma subjectStep_policySets st s :
  policySetSubjects st ⊆ policySetSubjects (result (subjectStep r instance pb st s))
  ∧ (isPolicySetSubject s = true →
     subjName s ∈ policySetSubjects (result (subjectStep r instance pb st s)))
  ∧ ((policySetRequests (calls (subjectStep r instance pb st s)) = []
      ∧ (isPolicySetSubject s = true → subjName s ∈ policySetSubjects st))
     ∨ (policySetRequests (calls (subjectStep r instance pb st s))
          = [{| Namespace := pbNamespace pb; Name := subjName s |}]
        ∧ isPolicySetSubject s = true ∧ subjName s ∉ policySetSubjects st)).
Proof.
  destruct (subjectStep_cases r instance pb st s)
    as [[Habs ->]|[(Hnot & Hnames & ->)|(Hset & Hnew & ->)]];
    cbn [result calls mret M_ret policySetSubjects].
  - assert (isPolicySetSubject s = true → subjName s ∈ policySetSubjects st) as Hin.
    { intros (Hg & Hk & Hk')%isPolicySetSubject_inv.
      unfold absorbs in Habs. rewrite Hg, Hk, Hk' in Habs. cbn in Habs.
      by apply bool_decide_eq_true in Habs. }
    split; [done|]. split; [done|]. by left.
  - assert (isPolicySetSubject s = false) as Hno.
    { apply namesPolicy_inv in Hnames as (_ & Hk & _).
      destruct (isPolicySetSubject s) eqn:Hset; [|done].
      apply isPolicySetSubject_inv in Hset as (_ & Hk' & _). congruence. }
    rewrite Hno. split; [done|]. split; [done|]. by left.
  - split; [apply union_subseteq_r|].
    split; [intros _; apply elem_of_union; left; by apply elem_of_singleton|].
    by right.
Qed.

Lemma subjectsLoop_policySets st subjects :
  let ks := policySetRequests (calls (subjectsLoop r instance pb st subjects)) in
  NoDup ks
  ∧ (∀ k, k ∈ ks →
       Namespace k = pbNamespace pb ∧ (Name k ∉ policySetSubjects st)
       ∧ ∃ s, s ∈ subjects ∧ isPolicySetSubject s = true ∧ subjName s = Name k)
  ∧ (∀ s, s ∈ subjects → isPolicySetSubject s = true →
       subjName s ∈ policySetSubjects st
       ∨ {| Namespace := pbNamespace pb; Name := subjName s |} ∈ ks).
Proof.
  revert st. induction subjects as [|s subjects IH]; intros st; cbn zeta.
  { cbn. split; [constructor|]. split; [by intros k ?%elem_of_nil|].
    by intros s ?%elem_of_nil. }
  cbn [subjectsLoop]. rewrite calls_bind. unfold policySetRequests.
  rewrite omap_app. fold (policySetRequests (calls (subjectStep r instance pb st s))).
  set (st' := result (subjectStep r instance pb st s)).
  fold (policySetRequests (calls (subjectsLoop r instance pb st' subjects))).
  destruct (IH st') as (Hnodup & Hkeys & Hall).
  destruct (subjectStep_policySets st s) as (Hsub & Hin & Hstep). fold st' in Hsub, Hin.
  assert (∀ k, k ∈ policySetRequests (calls (subjectsLoop r instance pb st' subjects)) →
            Namespace k = pbNamespace pb ∧ (Name k ∉ policySetSubjects st)
            ∧ ∃ s0, s0 ∈ s :: subjects ∧ isPolicySetSubject s0 = true
                    ∧ subjName s0 = Name k) as Hkeys'.
  { intros k (Hns & Hnot & s0 & Hs0 & Hset & Hname)%Hkeys.
    split; [done|]. split; [by auto|]. exists s0. split; [by right|done]. }
  destruct Hstep as [[-> Hseen]|(-> & Hset & Hnew)]; cbn [app].
  - split; [done|]. split; [done|].
    intros s0 [->|Hs0]%elem_of_cons Hset0; [by left; auto|].
    destruct (Hall s0 Hs0 Hset0) as [Hin0|?]; [|by right].
    destruct (decide (subjName s0 ∈ policySetSubjects st)); [by left|].
    destruct (subjectStep_cases r instance pb st s)
      as [[_ Heq]|[(_ & _ & Heq)|(Hset & Hnew & _)]].
    + left. subst st'. by rewrite Heq in Hin0.
    + left. subst st'. by rewrite Heq in Hin0.
    + exfalso. by apply Hnew, Hseen.
  - split; [|split].
    + constructor; [|done]. intros (_ & Hnot & _)%Hkeys. cbn in Hnot.
      by apply Hnot, Hin.
    + intros k [->|Hk]%elem_of_cons; [|by auto].
      split; [done|]. split; [done|]. exists s. split; [by left|done].
    + intros s0 [->|Hs0]%elem_of_cons Hset0; [right; by left|].
      destruct (Hall s0 Hs0 Hset0) as [Hin0|?]; [|right; by right].
      destruct (decide (subjName s0 = subjName s)) as [->|Hne]; [right; by left|].
      left. subst st'.
      destruct (subjectStep_cases r instance pb st s)
        as [[_ Heq]|[(_ & _ & Heq)|(_ & _ & Heq)]]; rewrite Heq in Hin0;
        cbn in Hin0; [done..|].
      apply elem_of_union in Hin0 as [?%elem_of_singleton|?]; done.
Qed.

(** X1. A subject that the loop has met already, one of another API group,
    one of a kind that is neither Policy nor PolicySet, and a Policy
    subject of another name are all without effect: with it or without it
    the loop ends in the same state and makes the same requests. *)
Theorem redundant_subject_changes_nothing (st : subjectsState)
    (before after : list Subject) (s : Subject) :
  s ∈ before
  ∨ subjAPIGroup s ≠ SchemeGroupVersion_Group
  ∨ (subjKind s ≠ Kind ∧ subjKind s ≠ PolicySetKind)
  ∨ (subjKind s = Kind ∧ subjName s ≠ polName instance) →
  subjectsLoop r instance pb st (before ++ s :: after)
    = subjectsLoop r instance pb st (before ++ after).
Proof.
  intros Hs.
  assert (absorbs instance (result (subjectsLoop r instance pb st before)) s = true)
    as Habs.
  { destruct Hs as [Hin|Hs]; [apply subjectsLoop_absorbs; by right|].
    apply subjectsLoop_absorbs. left. unfold absorbs.
    destruct Hs as [Hg|[[Hk Hk']|[Hk Hn]]].
    - apply String.eqb_neq in Hg. by rewrite Hg.
    - apply String.eqb_neq in Hk, Hk'. rewrite Hk, Hk'. apply orb_true_r.
    - apply String.eqb_neq in Hn. apply String.eqb_eq in Hk. rewrite Hk, Hn.
      cbn. by rewrite !orb_true_r. }
  rewrite !subjectsLoop_app. cbn [subjectsLoop].
  apply M_eq.
  - by rewrite !result_bind, (absorbs_step r instance pb _ _ Habs).
  - rewrite !calls_bind. cbn beta. rewrite ?calls_bind. cbn beta.
    by rewrite (absorbs_step r instance pb _ _ Habs).
Qed.

End records.

(** ** The resolver, request by request *)

Section resolver.
Context (r : Client) (instance : Policy) (pb : PlacementBinding).

(** The key of the object that the binding refers to, the request that
    looks it up, the error of a lookup that fails otherwise than by
    not-found, and the name that the lookup writes into a record. *)
Definition refKey : NamespacedName :=
  {| Namespace := pbNamespace pb; Name := refName (PlacementRef pb) |}.

Definition refLookup : list Call :=
  if String.eqb (refKind (PlacementRef pb)) "PlacementRule"
  then [CallGetPlacementRule refKey]
  else if String.eqb (refKind (PlacementRef pb)) "Placement"
       then [CallGetPlacement refKey]
       else [].

Definition refError : option error :=
  if String.eqb (refKind (PlacementRef pb)) "PlacementRule" then
    match storePlacementRule r refKey with
    | Failed err =>
        if IsNotFound err then None
        else Some (fmt_Errorf_w
               ("failed to check for PlacementRule '" +:+ refName (PlacementRef pb) +:+ "': ")
               err)
    | Found _ => None
    end
  else if String.eqb (refKind (PlacementRef pb)) "Placement" then
    match storePlacement r refKey with
    | Failed err =>
        if IsNotFound err then None
        else Some (fmt_Errorf_w
               ("failed to check for Placement '" +:+ refName (PlacementRef pb) +:+ "': ")
               err)
    | Found _ => None
    end
  else None.

Definition fillRef (p : Placement) : Placement :=
  if String.eqb (refKind (PlacementRef pb)) "PlacementRule" then
    setPlacementRule
      match storePlacementRule r refKey with
      | Found plr => plrName plr
      | Failed _ => ""
      end p
  else if String.eqb (refKind (PlacementRef pb)) "Placement" then
    setPlacement
      match storePlacement r refKey with
      | Found pl => plcName pl
      | Failed _ => ""
      end p
  else p.

Lemma resolvePlacementRef_run (placements : list Placement) :
  resolvePlacementRef r pb placements =
    mkM match refError with
        | Some err => inl err
        | None => inr (fillRef <$> placements)
        end
        refLookup.
Proof.
  unfold resolvePlacementRef, refError, fillRef, refLookup. fold refKey.
  destruct (String.eqb (refKind (PlacementRef pb)) "PlacementRule").
  { unfold Get_PlacementRule.
    destruct (storePlacementRule r refKey) as [plr|err] eqn:Hget;
      apply M_eq; rewrite ?result_bind, ?calls_bind; cbn [call result calls];
      try done; by destruct (IsNotFound err). }
  destruct (String.eqb (refKind (PlacementRef pb)) "Placement").
  { unfold Get_Placement.
    destruct (storePlacement r refKey) as [pl|err] eqn:Hget;
      apply M_eq; rewrite ?result_bind, ?calls_bind; cbn [call result calls];
      try done; by destruct (IsNotFound err). }
  by rewrite list_fmap_id.
Qed.

(** The records and the requests of the loop over the subjects. *)
Definition recordsFound : list Placement :=
  placementsSoFar (result (subjectsLoop r instance pb noSubjects (Subjects pb))).

Definition subjectCalls : list Call :=
  calls (subjectsLoop r instance pb noSubjects (Subjects pb)).

(** The resolver in one equation, result and requests. *)
Lemma resolver_run :
  getPolicyPlacementDecisions r instance pb =
    if negb (common_HasValidPlacementRef r pb)
    then mkM ([], [], Some (invalidReference pb)) [CallResolve pb]
    else if bool_decide (recordsFound = [])
    then mkM ([], [], None) (CallResolve pb :: subjectCalls)
    else match refError with
         | Some err => mkM ([], [], Some err) (CallResolve pb :: subjectCalls ++ refLookup)
         | None =>
             if Disabled instance
             then mkM ([], fillRef <$> recordsFound, None)
                      (CallResolve pb :: subjectCalls ++ refLookup)
             else mkM ((common_GetDecisions r pb).1, fillRef <$> recordsFound,
                       (common_GetDecisions r pb).2)
                      (CallResolve pb :: subjectCalls ++ refLookup ++ [CallGetDecisions pb])
         end.
Proof.
  unfold getPolicyPlacementDecisions, recordsFound, subjectCalls. fold noSubjects.
  destruct (common_HasValidPlacementRef r pb); cbn [negb]; [|done].
  set (loop := subjectsLoop r instance pb noSubjects (Subjects pb)).
  apply M_eq.
  - rewrite !result_bind. cbn beta.
    destruct (placementsSoFar (result loop)) as [|p ps] eqn:Hps; [done|].
    rewrite bool_decide_eq_false_2 by done.
    rewrite bool_decide_eq_false_2 by done.
    rewrite result_bind, resolvePlacementRef_run. cbn [result].
    destruct refError; [done|].
    rewrite bool_decide_eq_false_2 by done.
    by destruct (Disabled instance).
  - rewrite !calls_bind. cbn beta.
    cbn [call calls result app].
    destruct (placementsSoFar (result loop)) as [|p ps] eqn:Hps.
    { rewrite !bool_decide_eq_true_2 by done. cbn. by rewrite app_nil_r. }
    rewrite bool_decide_eq_false_2 by done.
    rewrite bool_decide_eq_false_2 by done.
    rewrite calls_bind, resolvePlacementRef_run. cbn [result calls].
    destruct refError; [by rewrite app_nil_r|].
    rewrite bool_decide_eq_false_2 by done.
    destruct (Disabled instance); cbn; by rewrite ?app_nil_r.
Qed.

Lemma subjectsLoop_calls (st : subjectsState) (subjects : list Subject) :
  Forall (λ c, ∃ k, c = CallGetPolicySet k)
         (calls (subjectsLoop r instance pb st subjects)).
Proof.
  revert st. induction subjects as [|s subjects IH]; intros st; [by constructor|].
  cbn [subjectsLoop]. rewrite calls_bind. apply Forall_app. split; [|apply IH].
  destruct (subjectStep_cases r instance pb st s)
    as [[_ ->]|[(_ & _ & ->)|(_ & _ & ->)]]; cbn; [by constructor..|].
  constructor; [eauto|constructor].
Qed.

Lemma subjectCalls_decisions : decisionRequests subjectCalls = [].
Proof.
  apply omap_nil_iff. intros c Hc.
  pose proof (subjectsLoop_calls noSubjects (Subjects pb)) as Hall.
  rewrite Forall_forall in Hall. by destruct (Hall c Hc) as [k ->].
Qed.

Lemma refLookup_policySets : policySetRequests refLookup = [].
Proof. unfold refLookup. by repeat destruct (String.eqb _ _). Qed.

Lemma refLookup_decisions : decisionRequests refLookup = [].
Proof. unfold refLookup. by repeat destruct (String.eqb _ _). Qed.

Lemma recordsFound_elem (p : Placement) :
  p ∈ recordsFound ↔ ∃ s, s ∈ Subjects pb ∧ recordOf r instance pb s p.
Proof.
  unfold recordsFound.
  rewrite (subjectsLoop_records r instance pb noSubjects (Subjects pb)
             (recorded_noSubjects r instance pb) p).
  cbn. split; [|by right]. by intros [?%elem_of_nil|?].
Qed.

(** A subject through which the binding binds the policy: it names the
    policy, or a policy set of which the policy is a member. *)
Definition contributes (s : Subject) : bool :=
  namesPolicy instance s
  || (isPolicySetSubject s && memberOf r instance pb (subjName s)).

Lemma contributes_recordOf (s : Subject) :
  contributes s = true ↔ ∃ p, recordOf r instance pb s p.
Proof.
  unfold contributes, recordOf. split.
  - intros [Hn|[Hs Hm]%andb_true_iff]%orb_true_iff; eexists; [left|right]; eauto.
  - intros (p & [[Hn _]|(Hs & Hm & _)]); apply orb_true_iff; [by left|right].
    by rewrite Hs, Hm.
Qed.

Lemma recordsFound_nil :
  recordsFound = [] ↔ Forall (λ s, contributes s = false) (Subjects pb).
Proof.
  rewrite Forall_forall. split.
  - intros Hnil s Hs. destruct (contributes s) eqn:Hc; [|done].
    apply contributes_recordOf in Hc as [p Hp].
    assert (p ∈ recordsFound) as Hin by (apply recordsFound_elem; eauto).
    rewrite Hnil in Hin. by apply elem_of_nil in Hin.
  - intros Hall. destruct recordsFound as [|p ps] eqn:Hrec; [done|].
    assert (p ∈ recordsFound) as Hin by (rewrite Hrec; by left).
    apply recordsFound_elem in Hin as (s & Hs & Hp).
    assert (contributes s = true) as Hc by (apply contributes_recordOf; eauto).
    rewrite (Hall s Hs) in Hc. done.
Qed.

Lemma fillRef_fields (p : Placement) :
  plPlacementBinding (fillRef p) = plPlacementBinding p
  ∧ plPolicySet (fillRef p) = plPolicySet p
  ∧ (plPlacementRule (fillRef p) = plPlacementRule p
     ∨ plPlacement (fillRef p) = plPlacement p).
Proof.
  unfold fillRef. repeat destruct (String.eqb _ _); cbn; auto.
Qed.

(** X2. Resolving a binding looks up each policy set among its subjects
    once, however often the subject is repeated: the lookups are pairwise
    distinct, each is in the namespace of the binding and for a subject of
    kind PolicySet of the policy API group, and when the reference of the
    binding is valid every such subject is looked up.  A lookup that fails,
    by not-found or otherwise, reads as "not a member". *)
Theorem policy_sets_fetched_once :
  let ks := policySetRequests (calls (getPolicyPlacementDecisions r instance pb)) in
  NoDup ks
  ∧ (∀ k, k ∈ ks →
       common_HasValidPlacementRef r pb = true ∧ Namespace k = pbNamespace pb
       ∧ ∃ s, s ∈ Subjects pb ∧ isPolicySetSubject s = true ∧ subjName s = Name k)
  ∧ (common_HasValidPlacementRef r pb = true →
     ∀ s, s ∈ Subjects pb → isPolicySetSubject s = true →
       {| Namespace := pbNamespace pb; Name := subjName s |} ∈ ks)
  ∧ (∀ name,
       result (isPolicyInPolicySet r (polName instance) name (pbNamespace pb)) = true ↔
       ∃ policySet,
         storePolicySet r {| Namespace := pbNamespace pb; Name := name |} = Found policySet
         ∧ polName instance ∈ Policies policySet).
Proof.
  cbn zeta.
  assert (policySetRequests (calls (getPolicyPlacementDecisions r instance pb))
          = if common_HasValidPlacementRef r pb
            then policySetRequests subjectCalls else []) as ->.
  { rewrite resolver_run.
    destruct (common_HasValidPlacementRef r pb); cbn [negb]; [|done].
    assert (∀ cs, policySetRequests (CallResolve pb :: subjectCalls ++ refLookup ++ cs)
                  = policySetRequests subjectCalls ++ policySetRequests cs) as Happ.
    { intros cs. unfold policySetRequests. cbn [omap list_omap].
      rewrite !omap_app. fold (policySetRequests refLookup).
      by rewrite refLookup_policySets. }
    case_bool_decide; [done|].
    destruct refError.
    { cbn [calls]. rewrite <- (app_nil_r refLookup), Happ.
      apply app_nil_r. }
    destruct (Disabled instance); cbn [calls].
    - rewrite <- (app_nil_r refLookup), Happ. apply app_nil_r.
    - rewrite Happ. apply app_nil_r. }
  destruct (subjectsLoop_policySets r instance pb noSubjects (Subjects pb))
    as (Hnodup & Hkeys & Hall).
  fold subjectCalls in Hnodup, Hkeys, Hall.
  split; [|split; [|split]].
  - destruct (common_HasValidPlacementRef r pb); [done|constructor].
  - intros k Hk. destruct (common_HasValidPlacementRef r pb); [|by apply elem_of_nil in Hk].
    destruct (Hkeys k Hk) as (Hns & _ & Hs). done.
  - intros -> s Hs Hset. by destruct (Hall s Hs Hset) as [?%elem_of_empty|?].
  - intros name. unfold isPolicyInPolicySet. rewrite result_bind.
    cbn [Get_PolicySet call result].
    destruct (storePolicySet r _) as [policySet|err]; cbn.
    + rewrite bool_decide_eq_true. split; [eauto|]. by intros (? & [= <-] & ?).
    + split; [done|]. by intros (? & ? & _).
Qed.

(** X3. The placement records that the resolver returns for a binding are
    those of its subjects, one for a subject that names the policy and one
    for each policy set of which the policy is a member, with the name of
    the referenced PlacementRule or Placement filled in as the store has it
    (empty when it is not found).  There are none when the reference is not
    valid or its lookup fails otherwise than by not-found.  Every record
    carries the name of the binding, and none names both a PlacementRule and
    a Placement. *)
Theorem resolver_records (p : Placement) :
  (p ∈ placementsOf r instance pb ↔
     common_HasValidPlacementRef r pb = true ∧ refError = None
     ∧ ∃ s p0, s ∈ Subjects pb ∧ recordOf r instance pb s p0 ∧ p = fillRef p0)
  ∧ (p ∈ placementsOf r instance pb →
       plPlacementBinding p = pbName pb
       ∧ (plPlacementRule p = "" ∨ plPlacement p = "")).
Proof.
  assert (p ∈ placementsOf r instance pb ↔
     common_HasValidPlacementRef r pb = true ∧ refError = None
     ∧ ∃ s p0, s ∈ Subjects pb ∧ recordOf r instance pb s p0 ∧ p = fillRef p0) as Hiff.
  { unfold placementsOf, resolve. rewrite resolver_run.
    destruct (common_HasValidPlacementRef r pb); cbn [negb].
    2: { cbn. split; [by intros ?%elem_of_nil|by intros [? _]]. }
    assert (p ∈ fillRef <$> recordsFound ↔
            ∃ s p0, s ∈ Subjects pb ∧ recordOf r instance pb s p0 ∧ p = fillRef p0)
      as Hfill.
    { rewrite list_elem_of_fmap. split.
      - intros (p0 & -> & (s & Hs & Hp0)%recordsFound_elem). eauto.
      - intros (s & p0 & Hs & Hp0 & ->). exists p0. split; [done|].
        apply recordsFound_elem. eauto. }
    case_bool_decide as Hnil.
    { cbn. split; [by intros ?%elem_of_nil|].
      intros (_ & _ & Hsome%Hfill). rewrite Hnil in Hsome.
      by apply elem_of_nil in Hsome. }
    destruct refError as [err|].
    { cbn. split; [by intros ?%elem_of_nil|by intros (_ & ? & _)]. }
    destruct (Disabled instance); cbn [result fst snd]; rewrite Hfill;
      (split; [by intros ?|by intros (_ & _ & ?)]). }
  split; [done|].
  intros (_ & _ & s & p0 & _ & Hp0 & ->)%Hiff.
  destruct (fillRef_fields p0) as (-> & _ & Hone).
  destruct Hp0 as [[_ ->]|(_ & _ & ->)]; cbn in *; split; try done;
    destruct Hone as [->| ->]; auto.
Qed.

(** X4. The resolver asks for the decisions of a binding once at most, as
    its last request, and exactly when the policy is not disabled and the
    binding yields a record; what it returns then is the answer to that
    request, targets and error, with the records.  Otherwise it returns no
    target.  A binding whose reference is not valid costs no request at
    all. *)
Theorem decision_lookup_guarded :
  let cs := calls (getPolicyPlacementDecisions r instance pb) in
  head cs = Some (CallResolve pb)
  ∧ (common_HasValidPlacementRef r pb = false → cs = [CallResolve pb])
  ∧ (decisionRequests cs = [pb] ↔
       Disabled instance = false ∧ placementsOf r instance pb ≠ [])
  ∧ (decisionRequests cs = [pb] →
       last cs = Some (CallGetDecisions pb)
       ∧ resolve r instance pb
         = ((common_GetDecisions r pb).1, placementsOf r instance pb,
            (common_GetDecisions r pb).2))
  ∧ (decisionRequests cs ≠ [pb] →
       decisionRequests cs = [] ∧ targetsOf r instance pb = []).
Proof.
  cbn zeta. unfold targetsOf, placementsOf, resolve. rewrite resolver_run.
  assert (∀ cs, decisionRequests (CallResolve pb :: subjectCalls ++ cs)
                = decisionRequests cs) as Happ.
  { intros cs. unfold decisionRequests. cbn [omap list_omap]. rewrite omap_app.
    fold (decisionRequests subjectCalls). by rewrite subjectCalls_decisions. }
  assert (decisionRequests (CallResolve pb :: subjectCalls) = []) as Hloop.
  { rewrite <- (app_nil_r subjectCalls). by rewrite Happ. }
  assert (decisionRequests (refLookup ++ [CallGetDecisions pb]) = [pb]) as Hlast.
  { unfold decisionRequests. rewrite omap_app. fold (decisionRequests refLookup).
    by rewrite refLookup_decisions. }
  destruct (common_HasValidPlacementRef r pb); cbn [negb].
  2: { cbn. repeat split; try done. by intros [_ ?]. }
  case_bool_decide as Hnil.
  { cbn [result calls fst snd head]. rewrite Hloop.
    repeat split; try done. by intros [_ ?]. }
  destruct refError as [err|].
  { cbn [result calls fst snd head]. rewrite Happ, refLookup_decisions.
    repeat split; try done. by intros [_ ?]. }
  assert (fillRef <$> recordsFound ≠ []) as Hsome.
  { intros Hmap. apply fmap_nil_inv in Hmap. done. }
  destruct (Disabled instance); cbn [result calls fst snd head].
  - rewrite Happ, refLookup_decisions. repeat split; try done. by intros [? _].
  - rewrite Happ, Hlast. repeat split; try done.
    by rewrite app_comm_cons, !app_assoc, last_snoc.
Qed.

(** X5. A binding with a valid reference none of whose subjects names the
    policy or a policy set holding it is not for the policy: the resolver
    returns nothing for it, neither target nor record nor error, and asks
    for nothing but the policy sets.  A binding with such a subject never
    resolves to nothing: it yields a record, or the lookup of its reference
    fails. *)
Theorem irrelevant_binding_resolves_to_nothing :
  common_HasValidPlacementRef r pb = true →
  (Forall (λ s, contributes s = false) (Subjects pb) ↔
     resolve r instance pb = ([], [], None))
  ∧ (Forall (λ s, contributes s = false) (Subjects pb) →
       Forall (λ c, c = CallResolve pb ∨ ∃ k, c = CallGetPolicySet k)
              (calls (getPolicyPlacementDecisions r instance pb)))
  ∧ (Exists (λ s, contributes s = true) (Subjects pb) →
       placementsOf r instance pb ≠ []
       ∨ ∃ err, errorOf r instance pb = Some err ∧ refError = Some err).
Proof.
  intros Hvalid. rewrite <- recordsFound_nil.
  assert (Exists (λ s, contributes s = true) (Subjects pb) → recordsFound ≠ [])
    as Hexists.
  { intros (s & Hs & Hc)%Exists_exists Hnil. apply recordsFound_nil in Hnil.
    rewrite Forall_forall in Hnil. rewrite (Hnil s Hs) in Hc. done. }
  unfold errorOf, placementsOf, resolve. rewrite resolver_run, Hvalid. cbn [negb].
  case_bool_decide as Hnil.
  { cbn [result calls]. split; [done|]. split; [|by intros ?%Hexists].
    intros _. constructor; [by left|].
    eapply Forall_impl; [apply subjectsLoop_calls|]. cbn. eauto. }
  assert (fillRef <$> recordsFound ≠ []) as Hsome.
  { intros Hmap. by apply fmap_nil_inv in Hmap. }
  destruct refError as [err|].
  { cbn [result]. split; [split; [done|by intros [=]]|]. split; [done|].
    intros _. right. eauto. }
  destruct (Disabled instance); cbn [result fst snd].
  - split; [split; [done|by intros [=]]|]. split; [done|]. by left.
  - split; [split; [done|by intros [= _ ? _]]|]. split; [done|]. by left.
Qed.

End resolver.

(** ** The builder, binding by binding *)


Section bindings.
Context (r : Client) `{sorter : SliceSorter} (instance : Policy).



Lemma matches_iff (D : gset PlacementDecision) (pb : PlacementBinding) :
  matches r instance D pb = true ↔ ∃ dec, dec ∈ targetsOf r instance pb ∧ dec ∈ D.
Proof.
  unfold matches. rewrite existsb_exists. split.
  - intros (dec & Hin%list_elem_of_In & Hdec%bool_decide_eq_true). eauto.
  - intros (dec & Hin & Hdec). exists dec.
    split; [by apply list_elem_of_In|by apply bool_decide_eq_true].
Qed.

Lemma elem_of_matchedPlacements p D pbs :
  p ∈ matchedPlacements r instance D pbs ↔
  ∃ pb, pb ∈ pbs ∧ p ∈ placementsOf r instance pb
        ∧ ∃ dec, dec ∈ targetsOf r instance pb ∧ dec ∈ D.
Proof.
  unfold matchedPlacements. rewrite elem_of_placementsAll. split.
  - intros (pb & [Hm Hpb]%list_elem_of_filter & Hp). apply matches_iff in Hm. eauto.
  - intros (pb & Hpb & Hp & Hm%matches_iff). exists pb. split; [|done].
    by apply list_elem_of_filter.
Qed.

Lemma attempted_prefix pbs : attempted r instance pbs `prefix_of` pbs.
Proof.
  induction pbs as [|pb pbs IH]; cbn [attempted]; [done|].
  apply prefix_cons. destruct (errorOf r instance pb); [apply prefix_nil|done].
Qed.

Lemma unrestricted_restricted_perm pbs : unrestricted pbs ++ restricted pbs ≡ₚ pbs.
Proof.
  induction pbs as [|pb pbs IH]; [done|].
  unfold unrestricted, restricted in *. rewrite !filter_cons.
  destruct (isRestricted pb) eqn:Hres.
  - rewrite decide_False, decide_True by done.
    rewrite <- Permutation_middle. by constructor.
  - rewrite decide_True, decide_False by done. cbn. by constructor.
Qed.

(** The requests of a loop are those of the resolver, binding after
    binding. *)
Definition requestsOf (pbs : list PlacementBinding) : list Call :=
  pbs ≫= λ pb, calls (getPolicyPlacementDecisions r instance pb).

Lemma unrestrictedLoop_calls items acc :
  calls (unrestrictedLoop r instance items acc)
    = requestsOf (attempted r instance (unrestricted items)).
Proof.
  revert acc. induction items as [|pb items IH]; intros acc; cbn [unrestrictedLoop].
  { done. }
  unfold unrestricted. rewrite filter_cons. fold (isRestricted pb).
  destruct (isRestricted pb) eqn:Hres.
  - rewrite decide_False by done. apply IH.
  - rewrite decide_True by done. rewrite calls_bind.
    change (result (getPolicyPlacementDecisions r instance pb))
      with (resolve r instance pb).
    cbn [attempted requestsOf mbind list_bind]. unfold errorOf. f_equal.
    destruct (resolve r instance pb) as [[plcDecisions plcPlacements] [err|]]; [done|].
    apply IH.
Qed.

Lemma restrictedLoop_calls items acc :
  calls (restrictedLoop r instance items acc)
    = requestsOf (attempted r instance (restricted items)).
Proof.
  revert acc. induction items as [|pb items IH]; intros acc; cbn [restrictedLoop].
  { done. }
  unfold restricted. rewrite filter_cons. fold (isRestricted pb).
  destruct (isRestricted pb) eqn:Hres; cbn [negb].
  - rewrite decide_True by done. rewrite calls_bind.
    change (result (getPolicyPlacementDecisions r instance pb))
      with (resolve r instance pb).
    cbn [attempted requestsOf mbind list_bind]. unfold errorOf. f_equal.
    destruct (resolve r instance pb) as [[plcDecisions plcPlacements] [err|]]; [done|].
    cbn [snd]. destruct (foldl _ _ _). apply IH.
  - rewrite decide_False by done. apply IH.
Qed.

Lemma requestsOf_app pbs1 pbs2 :
  requestsOf (pbs1 ++ pbs2) = requestsOf pbs1 ++ requestsOf pbs2.
Proof. apply bind_app. Qed.

Lemma getAllClusterDecisions_calls pbList :
  calls (getAllClusterDecisions r instance pbList)
    = requestsOf (invoked (calls (getAllClusterDecisions r instance pbList))).
Proof.
  rewrite getAllClusterDecisions_invoked, requestsOf_app.
  unfold getAllClusterDecisions.
  rewrite calls_bind, unrestrictedLoop_calls, unrestrictedLoop_result. f_equal.
  destruct (firstError r instance (unrestricted pbList)); [done|].
  cbn [fst snd app]. fold (firstPass r instance pbList).
  case_bool_decide; [done|].
  rewrite calls_bind, restrictedLoop_calls, restrictedLoop_result.
  destruct (firstError r instance (restricted pbList)); apply app_nil_r.
Qed.

(** X6. The decision map that the builder returns is Go's nil or holds a
    target: it is never an empty map, and it never comes with an error.  A
    nil map without error means that no binding that is not restricted
    resolved to any target. *)
Theorem decision_map_nil_or_nonempty (pbList : list PlacementBinding)
    (m : option (gmap PlacementDecision BindingOverrides))
    (placements : list Placement) (err : option error) :
  result (getAllClusterDecisions r instance pbList) = (m, placements, err) →
  match m with
  | Some decisions => decisions ≠ ∅ ∧ err = None
  | None =>
      err = None →
      ∀ pb, pb ∈ pbList → isRestricted pb = false → targetsOf r instance pb = []
  end.
Proof.
  rewrite getAllClusterDecisions_result.
  destruct (firstError r instance (unrestricted pbList)); [by intros [= <- _ <-]|].
  case_bool_decide as Hsize.
  - intros [= <- _ _] _ pb Hpb Hres.
    destruct (targetsOf r instance pb) as [|dec targets] eqn:Htargets; [done|].
    apply map_size_empty_inv in Hsize.
    assert (dec ∈ dom (firstPass r instance pbList)) as Hdom.
    { apply mergeAll_dom. right. exists pb.
      split; [by apply elem_of_unrestricted|]. rewrite Htargets. by left. }
    rewrite Hsize, dom_empty_L in Hdom. by apply elem_of_empty in Hdom.
  - destruct (firstError r instance (restricted pbList)); [by intros [= <- _ <-]|].
    intros [= <- _ <-]. split; [|done]. intros Hempty. apply Hsize.
    apply map_size_empty_iff, dom_empty_inv_L.
    by rewrite <- (confirmAll_dom r instance _ (restricted pbList)), Hempty, dom_empty_L.
Qed.

(** X7. When the builder succeeds, the placement records it returns are
    the records of every binding that is not restricted and the records of
    the restricted bindings that resolve to a decided target, and no
    other. *)
Theorem returned_placements (pbList : list PlacementBinding)
    (m : option (gmap PlacementDecision BindingOverrides))
    (placements : list Placement) (p : Placement) :
  result (getAllClusterDecisions r instance pbList) = (m, placements, None) →
  p ∈ placements ↔
  ∃ pb, pb ∈ pbList ∧ p ∈ placementsOf r instance pb
        ∧ (isRestricted pb = false
           ∨ ∃ dec, dec ∈ targetsOf r instance pb ∧ is_Some (default ∅ m !! dec)).
Proof.
  rewrite getAllClusterDecisions_result.
  destruct (firstError r instance (unrestricted pbList)); [done|].
  case_bool_decide as Hsize.
  - intros [= <- <-]. rewrite sort_Slice_perm, elem_of_placementsAll. split.
    + intros (pb & [Hres Hpb]%elem_of_unrestricted & Hp). eauto.
    + intros (pb & Hpb & Hp & [Hres|(dec & _ & Hdec)]).
      * exists pb. by rewrite elem_of_unrestricted.
      * cbn in Hdec. rewrite lookup_empty in Hdec. by destruct Hdec.
  - destruct (firstError r instance (restricted pbList)); [done|].
    intros [= <- <-].
    rewrite sort_Slice_perm, elem_of_app, elem_of_placementsAll,
      elem_of_matchedPlacements.
    cbn [default].
    assert (∀ dec, is_Some (confirmAll r instance (firstPass r instance pbList)
                              (restricted pbList) !! dec)
                   ↔ dec ∈ dom (firstPass r instance pbList)) as Hdom.
    { intros dec. by rewrite <- elem_of_dom, confirmAll_dom. }
    split.
    + intros [(pb & [Hres Hpb]%elem_of_unrestricted & Hp)
             |(pb & [Hres Hpb]%elem_of_restricted & Hp & dec & Hdec & Hin)].
      * eauto.
      * exists pb. split; [done|]. split; [done|]. right. exists dec.
        by rewrite Hdom.
    + intros (pb & Hpb & Hp & Hwhy). destruct (isRestricted pb) eqn:Hres.
      * destruct Hwhy as [?|(dec & Hdec & Hin)]; [done|]. right. exists pb.
        rewrite elem_of_restricted. split; [done|]. split; [done|].
        exists dec. by rewrite <- Hdom.
      * left. exists pb. by rewrite elem_of_unrestricted.
Qed.


(** X9. The builder makes no request of its own: its requests are those of
    the resolver, run on one binding after another.  The resolver is run on
    the bindings that are not restricted, in the order of the list and up to
    the first that fails, and then likewise on the restricted ones; so it is
    run at most once on each binding of the list, and when the builder
    returns a decision map it has been run once on every binding. *)
Theorem builder_requests_through_resolver (pbList : list PlacementBinding) :
  let cs := calls (getAllClusterDecisions r instance pbList) in
  cs = invoked cs ≫= (λ pb, calls (getPolicyPlacementDecisions r instance pb))
  ∧ (∃ first second,
       invoked cs = first ++ second
       ∧ first `prefix_of` unrestricted pbList
       ∧ second `prefix_of` restricted pbList)
  ∧ invoked cs ⊆+ pbList
  ∧ (∀ decisions placements err,
       result (getAllClusterDecisions r instance pbList)
         = (Some decisions, placements, err) →
       invoked cs = unrestricted pbList ++ restricted pbList).
Proof.
  cbn zeta.
  assert (∃ first second,
       invoked (calls (getAllClusterDecisions r instance pbList)) = first ++ second
       ∧ first `prefix_of` unrestricted pbList
       ∧ second `prefix_of` restricted pbList) as Hparts.
  { rewrite getAllClusterDecisions_invoked. eexists _, _. split; [done|].
    split; [apply attempted_prefix|].
    destruct (firstError r instance (unrestricted pbList)); [apply prefix_nil|].
    case_bool_decide; [apply prefix_nil|apply attempted_prefix]. }
  split; [apply getAllClusterDecisions_calls|]. split; [done|]. split.
  - destruct Hparts as (first & second & -> & [k1 Hk1] & [k2 Hk2]).
    rewrite <- (unrestricted_restricted_perm pbList), Hk1, Hk2.
    apply submseteq_app; by apply submseteq_inserts_r.
  - intros decisions placements err.
    rewrite getAllClusterDecisions_invoked, getAllClusterDecisions_result.
    destruct (firstError r instance (unrestricted pbList)) eqn:Hfirst; [done|].
    case_bool_decide; [done|].
    destruct (firstError r instance (restricted pbList)) eqn:Hsecond; [done|].
    intros _. by rewrite !attempted_ok.
Qed.

(** X10. [getDecisions] first lists the bindings of the namespace of the
    policy.  When that fails it returns the error of the list request with
    no placement and an empty set, and asks for nothing else; whenever it
    returns an error, it returns no placement and an empty set with it.
    The set it returns marks every target with [true], and its targets are
    targets to which a listed binding that is not restricted resolved. *)
Theorem getDecisions_outcomes :
  head (calls (getDecisions r instance)) = Some (CallListBindings (polNamespace instance))
  ∧ (∀ err, storeBindings r (polNamespace instance) = inl err →
       getDecisions r instance
         = mkM ([], ∅, Some err) [CallListBindings (polNamespace instance)])
  ∧ (∀ err, (result (getDecisions r instance)).2 = Some err →
       result (getDecisions r instance) = ([], ∅, Some err))
  ∧ (∀ dec b, (result (getDecisions r instance)).1.2 !! dec = Some b →
       b = true
       ∧ ∃ pbList pb, storeBindings r (polNamespace instance) = inr pbList
           ∧ pb ∈ pbList ∧ isRestricted pb = false
           ∧ dec ∈ targetsOf r instance pb).
Proof.
  split; [|split; [|split]].
  - unfold getDecisions. by rewrite calls_bind.
  - intros err Hlist. unfold getDecisions. apply M_eq.
    + rewrite result_bind. cbn [List_PlacementBindings call result]. by rewrite Hlist.
    + rewrite calls_bind. cbn [List_PlacementBindings call result calls].
      by rewrite Hlist.
  - intros err. rewrite getDecisions_result.
    destruct (storeBindings r (polNamespace instance)) as [e|pbList];
      [by intros [= ->]|].
    rewrite getAllClusterDecisions_result.
    destruct (firstError r instance (unrestricted pbList)); [by intros [= ->]|].
    case_bool_decide; [done|].
    destruct (firstError r instance (restricted pbList)); [by intros [= ->]|done].
  - intros dec b. rewrite getDecisions_result.
    destruct (storeBindings r (polNamespace instance)) as [e|pbList];
      [cbn [fst snd]; by rewrite lookup_empty|].
    rewrite getAllClusterDecisions_result.
    destruct (firstError r instance (unrestricted pbList));
      [cbn [fst snd]; by rewrite lookup_empty|].
    case_bool_decide; [cbn [fst snd default]; by rewrite fmap_empty, lookup_empty|].
    destruct (firstError r instance (restricted pbList));
      [cbn [fst snd]; by rewrite lookup_empty|].
    cbn [fst snd default from_option]. unfold id. rewrite lookup_fmap.
    destruct (confirmAll r instance (firstPass r instance pbList) (restricted pbList)
                !! dec) as [o|] eqn:Hdec; [|done].
    intros [= <-]. split; [done|].
    assert (dec ∈ dom (confirmAll r instance (firstPass r instance pbList)
                         (restricted pbList))) as Hdom by (apply elem_of_dom; eauto).
    rewrite confirmAll_dom in Hdom.
    apply mergeAll_dom in Hdom as [Hdom|(pb & [Hres Hpb]%elem_of_unrestricted & Hin)].
    { by rewrite dom_empty_L in Hdom. }
    eauto 10.
Qed.

End bindings.

(** ** The aggregation, the writer and the lock *)

Section writer.
Context (r : Client) `{sorter : SliceSorter} `{ranger : MapRange} (instance : Policy).

Lemma statusEntry_inj (dec dec' : PlacementDecision) :
  statusEntry r instance dec = statusEntry r instance dec' → dec = dec'.
Proof.
  destruct dec, dec'. unfold statusEntry. cbn.
  by intros [= _ -> ->].
Qed.

Lemma lookupError_Some (dec : PlacementDecision) (err : error) :
  lookupError r instance dec = Some err →
  IsNotFound err = false ∧ storePolicy r (replicaKey instance dec) = Failed err.
Proof.
  unfold lookupError. destruct (storePolicy r (replicaKey instance dec)) as [p|e]; [done|].
  destruct (IsNotFound e) eqn:Hnf; [done|]. by intros [= <-].
Qed.

(** X11. The aggregation reports the targets of the decision set and
    nothing else: every entry it returns is the entry of a target of the
    set, under the target's cluster name and namespace, and no entry comes
    twice.  An error it returns is never a not-found error: it is what the
    lookup of the replica of some target of the set failed with. *)
Theorem status_reports_targets_only (decisions : decisionSet) :
  let out := result (calculatePerClusterStatus r instance decisions) in
  (∀ e, e ∈ out.1 →
     ∃ dec, is_Some (decisions !! dec) ∧ e = statusEntry r instance dec
            ∧ cpcsClusterName e = ClusterName dec
            ∧ cpcsClusterNamespace e = ClusterNamespace dec)
  ∧ NoDup out.1
  ∧ (∀ err, out.2 = Some err →
       Disabled instance = false ∧ IsNotFound err = false
       ∧ ∃ dec, is_Some (decisions !! dec)
                ∧ storePolicy r (replicaKey instance dec) = Failed err).
Proof.
  cbn zeta. destruct (Disabled instance) eqn:Hdis.
  { rewrite (calculatePerClusterStatus_disabled r instance decisions Hdis). cbn.
    split; [by intros e ?%elem_of_nil|]. split; [constructor|done]. }
  destruct (calculatePerClusterStatus_enabled r instance decisions Hdis) as [-> _].
  cbn [fst snd]. destruct (rangeKeys_order decisions) as [Hnodup Hkeys].
  split; [|split].
  - intros e. rewrite sort_Slice_perm.
    intros (dec & -> & Hdec%Hkeys)%list_elem_of_fmap. by exists dec.
  - rewrite sort_Slice_perm. apply NoDup_fmap_2; [|done].
    intros dec dec'. apply statusEntry_inj.
  - intros err Hlast. split; [done|].
    assert (err ∈ omap (lookupError r instance) (rangeKeys decisions)) as Hin.
    { destruct (omap _ _) as [|e l] using rev_ind; [done|].
      rewrite last_snoc in Hlast. injection Hlast as ->.
      apply elem_of_app. right. by left. }
    apply list_elem_of_omap in Hin as (dec & Hdec%Hkeys & [Hnf Hget]%lookupError_Some).
    split; [done|]. eauto.
Qed.

Lemma resolver_reads (pb : PlacementBinding) :
  Forall (λ c, isRead c = true) (calls (getPolicyPlacementDecisions r instance pb)).
Proof.
  assert (Forall (λ c, isRead c = true) (subjectCalls r instance pb)) as Hloop.
  { eapply Forall_impl; [apply subjectsLoop_calls|]. by intros c [k ->]. }
  assert (Forall (λ c, isRead c = true) (refLookup pb)) as Href.
  { unfold refLookup. repeat destruct (String.eqb _ _); by repeat constructor. }
  rewrite resolver_run.
  destruct (negb _); [by repeat constructor|].
  case_bool_decide; [by constructor|].
  destruct (refError r pb).
  { constructor; [done|]. by apply Forall_app. }
  destruct (Disabled instance); cbn [calls]; constructor; try done;
    rewrite ?Forall_app; repeat split; try done.
  by repeat constructor.
Qed.

Lemma getDecisions_reads :
  Forall (λ c, isRead c = true) (calls (getDecisions r instance)).
Proof.
  unfold getDecisions. rewrite calls_bind. cbn [List_PlacementBindings call calls result].
  constructor; [done|].
  destruct (storeBindings r (polNamespace instance)) as [err|pbList]; [constructor|].
  rewrite calls_bind. apply Forall_app. split.
  - rewrite getAllClusterDecisions_calls. unfold requestsOf.
    apply Forall_forall. intros c (pb & Hc & _)%list_elem_of_bind.
    pose proof (resolver_reads pb) as Hall. rewrite Forall_forall in Hall. auto.
  - change (result (getAllClusterDecisions r instance pbList))
      with (build r instance pbList).
    by destruct (build r instance pbList) as [[[m|] placements] [err|]].
Qed.

Lemma calculatePerClusterStatus_reads (decisions : decisionSet) :
  Forall (λ c, isRead c = true) (calls (calculatePerClusterStatus r instance decisions)).
Proof.
  destruct (Disabled instance) eqn:Hdis.
  - rewrite (calculatePerClusterStatus_disabled r instance decisions Hdis). constructor.
  - destruct (calculatePerClusterStatus_enabled r instance decisions Hdis) as [_ ->].
    apply Forall_fmap, Forall_forall. done.
Qed.

(** The policy that [rootStatusUpdate] works on after the refresh: the
    stored one, or the one it was given when the refresh fails. *)
Definition refreshed : Policy :=
  match storePolicy r {| Namespace := polNamespace instance; Name := polName instance |} with
  | Found fresh => fresh
  | Failed _ => instance
  end.

Lemma rootStatusUpdate_run (placements : list Placement) (decisions : decisionSet) :
  result (getDecisions r instance) = (placements, decisions, None) →
  let cpcs := (result (calculatePerClusterStatus r instance decisions)).1 in
  let obj := setStatus refreshed
               {| stStatus := cpcs;
                  stComplianceState := propagator_CalculateRootCompliance r cpcs;
                  stPlacement := placements |} in
  rootStatusUpdate r instance =
    mkM (storeStatusUpdate r obj)
        ((calls (getDecisions r instance)
          ++ calls (calculatePerClusterStatus r instance decisions)
          ++ [CallGetPolicy {| Namespace := polNamespace instance;
                               Name := polName instance |}])
         ++ [CallStatusUpdate obj]).
Proof.
  intros Hdec. cbn zeta. unfold rootStatusUpdate, refreshed. apply M_eq.
  - rewrite result_bind, Hdec, !result_bind. cbn [Get_Policy call result].
    by destruct (storePolicy r _).
  - rewrite calls_bind, Hdec, !calls_bind.
    cbn [Get_Policy Status_Update call result calls].
    by rewrite <- !app_assoc.
Qed.

(** X12. Once the decisions are computed, [rootStatusUpdate] ends with one
    status update and returns what the update returns, whether or not the
    aggregation met an error.  The object written is the policy as
    refreshed from the store, or the one given when the refresh fails, with
    nothing changed but its status: the placements of [getDecisions], the
    entries of the aggregation, one for each target of the decision set
    unless the policy is disabled, and the root compliance computed from
    these entries.  All requests before the update are reads. *)
Theorem status_update_written (placements : list Placement) (decisions : decisionSet) :
  result (getDecisions r instance) = (placements, decisions, None) →
  ∃ reads obj,
    calls (rootStatusUpdate r instance) = reads ++ [CallStatusUpdate obj]
    ∧ Forall (λ c, isRead c = true) reads
    ∧ result (rootStatusUpdate r instance) = storeStatusUpdate r obj
    ∧ polName obj = polName refreshed ∧ polNamespace obj = polNamespace refreshed
    ∧ Disabled obj = Disabled refreshed
    ∧ stPlacement (Status obj) = placements
    ∧ stStatus (Status obj) = (result (calculatePerClusterStatus r instance decisions)).1
    ∧ stComplianceState (Status obj)
      = propagator_CalculateRootCompliance r (stStatus (Status obj))
    ∧ length (stStatus (Status obj))
      = if Disabled instance then 0 else size decisions.
Proof.
  intros Hdec. pose proof (rootStatusUpdate_run placements decisions Hdec) as Hrun.
  cbn zeta in Hrun. rewrite Hrun. eexists _, _. split; [done|].
  split; [|repeat split].
  - rewrite !Forall_app. split; [apply getDecisions_reads|].
    split; [apply calculatePerClusterStatus_reads|by repeat constructor].
  - cbn [setStatus Status stStatus]. destruct (Disabled instance) eqn:Hdis.
    + by rewrite (calculatePerClusterStatus_disabled r instance decisions Hdis).
    + destruct (calculatePerClusterStatus_enabled r instance decisions Hdis) as [-> _].
      cbn [fst]. by rewrite sort_Slice_perm, length_fmap, rangeKeys_length.
Qed.

End writer.

(** X13. One run of [Reconcile] takes the lock of its request, reads the
    root policy first, and releases the lock last; in between it only
    reads, but for one status update at most, which is then the last thing
    it does before the release.  When the root policy is not found the run
    ends there without error and writes nothing; when the read fails
    otherwise the run ends there with that error; when the policy is found
    the run returns what [rootStatusUpdate] returns for it. *)
Theorem reconcile_under_lock (r : Client) `{sorter : SliceSorter} `{ranger : MapRange}
    (request : NamespacedName) :
  let key := {| Namespace := Namespace request; Name := Name request |} in
  (∃ reads,
     Forall (λ c, isRead c = true) reads
     ∧ head reads = Some (CallGetPolicy key)
     ∧ (calls (Reconcile r request) = CallLock request :: reads ++ [CallUnlock request]
        ∨ ∃ obj, calls (Reconcile r request)
                 = CallLock request :: reads ++ [CallStatusUpdate obj; CallUnlock request]))
  ∧ (∀ err, storePolicy r key = Failed err →
       calls (Reconcile r request) = [CallLock request; CallGetPolicy key; CallUnlock request]
       ∧ result (Reconcile r request) = if IsNotFound err then None else Some err)
  ∧ (∀ rootPolicy, storePolicy r key = Found rootPolicy →
       result (Reconcile r request) = result (rootStatusUpdate r rootPolicy)).
Proof.
  cbn zeta. destruct (Reconcile_brackets r request) as [-> ->].
  unfold reconcileLocked. rewrite calls_bind, result_bind.
  cbn [Get_Policy call result calls].
  destruct (storePolicy r _) as [rootPolicy|err].
  - split; [|split; [done|]].
    + rewrite calls_bind.
      assert (calls (match result (rootStatusUpdate r rootPolicy) with
                     | Some e => mret (Some e)
                     | None => mret None
                     end : M (option error)) = []) as ->
        by (by destruct (result (rootStatusUpdate r rootPolicy))).
      rewrite app_nil_r.
      destruct (result (getDecisions r rootPolicy)) as [[placements decisions] [e|]]
        eqn:Hdec.
      * exists (CallGetPolicy {| Namespace := Namespace request; Name := Name request |}
                :: calls (getDecisions r rootPolicy)).
        split; [constructor; [done|apply getDecisions_reads]|]. split; [done|].
        left. unfold rootStatusUpdate. rewrite calls_bind, Hdec.
        cbn [calls mret M_ret]. by rewrite app_nil_r.
      * pose proof (rootStatusUpdate_run r rootPolicy placements decisions Hdec) as Hrun.
        cbn zeta in Hrun. rewrite Hrun. cbn [calls].
        exists (CallGetPolicy {| Namespace := Namespace request; Name := Name request |}
                :: calls (getDecisions r rootPolicy)
                   ++ calls (calculatePerClusterStatus r rootPolicy decisions)
                   ++ [CallGetPolicy {| Namespace := polNamespace rootPolicy;
                                        Name := polName rootPolicy |}]).
        split; [|split; [done|]].
        2: { right. eexists. cbn [app]. by rewrite <- !app_assoc. }
        constructor; [done|]. rewrite !Forall_app.
        split; [apply getDecisions_reads|].
        split; [apply calculatePerClusterStatus_reads|by repeat constructor].
    + intros rootPolicy' [= <-]. rewrite result_bind.
      by destruct (result (rootStatusUpdate r rootPolicy)).
  - split; [|split; [|done]].
    + exists [CallGetPolicy {| Namespace := Namespace request; Name := Name request |}].
      split; [by repeat constructor|]. split; [done|]. left.
      by destruct (IsNotFound err).
    + intros err' [= <-]. by destruct (IsNotFound err).
Qed.

(** ** Bindings that are not for the policy *)

Section influence.
Context (r : Client) `{sorter : SliceSorter} (instance : Policy).

Lemma skip_filter {X} (F : list PlacementBinding → X) (P : PlacementBinding → Prop)
    `{∀ pb, Decision (P pb)} (pb : PlacementBinding)
    (before after : list PlacementBinding) :
  (∀ l1 l2, F (l1 ++ pb :: l2) = F (l1 ++ l2)) →
  F (filter P (before ++ pb :: after)) = F (filter P (before ++ after)).
Proof.
  intros Hskip. rewrite !filter_app, filter_cons. by destruct (decide (P pb)).
Qed.

Section skip.
Context (pb : PlacementBinding) (Hnothing : resolve r instance pb = ([], [], None)).

Lemma nothing_targets : targetsOf r instance pb = [].
Proof. unfold targetsOf. by rewrite Hnothing. Qed.

Lemma nothing_placements : placementsOf r instance pb = [].
Proof. unfold placementsOf. by rewrite Hnothing. Qed.

Lemma firstError_skip l1 l2 :
  firstError r instance (l1 ++ pb :: l2) = firstError r instance (l1 ++ l2).
Proof.
  induction l1 as [|pb' l1 IH]; cbn [app firstError].
  - unfold errorOf. by rewrite Hnothing.
  - by rewrite IH.
Qed.

Lemma mergeAll_skip d l1 l2 :
  mergeAll r instance d (l1 ++ pb :: l2) = mergeAll r instance d (l1 ++ l2).
Proof.
  unfold mergeAll. rewrite !foldl_app. cbn [foldl]. by rewrite nothing_targets.
Qed.

Lemma confirmAll_skip d l1 l2 :
  confirmAll r instance d (l1 ++ pb :: l2) = confirmAll r instance d (l1 ++ l2).
Proof.
  unfold confirmAll. rewrite !foldl_app. cbn [foldl]. by rewrite nothing_targets.
Qed.

Lemma placementsAll_skip l1 l2 :
  placementsAll r instance (l1 ++ pb :: l2) = placementsAll r instance (l1 ++ l2).
Proof.
  unfold placementsAll. by rewrite !bind_app, bind_cons, nothing_placements.
Qed.

Lemma matchedPlacements_skip D l1 l2 :
  matchedPlacements r instance D (l1 ++ pb :: l2)
    = matchedPlacements r instance D (l1 ++ l2).
Proof.
  unfold matchedPlacements.
  apply (skip_filter (placementsAll r instance)), placementsAll_skip.
Qed.

End skip.

(** X14. A binding for which the resolver returns nothing (no target, no
    record, no error), as it does for a binding that is not for the
    policy, has no influence on what the builder returns: with it or
    without it in the list, restricted or not, the decision map, the
    placements and the error are the same. *)
Theorem irrelevant_binding_has_no_influence (before after : list PlacementBinding)
    (pb : PlacementBinding) :
  resolve r instance pb = ([], [], None) →
  result (getAllClusterDecisions r instance (before ++ pb :: after))
    = result (getAllClusterDecisions r instance (before ++ after)).
Proof.
  intros Hnothing. rewrite !getAllClusterDecisions_result. unfold firstPass.
  unfold unrestricted, restricted.
  rewrite (skip_filter (firstError r instance) _ pb before after
             (firstError_skip pb Hnothing)).
  rewrite (skip_filter (firstError r instance) (λ pb, isRestricted pb = true)
             pb before after (firstError_skip pb Hnothing)).
  rewrite (skip_filter (mergeAll r instance ∅) _ pb before after
             (mergeAll_skip pb Hnothing ∅)).
  rewrite (skip_filter (placementsAll r instance) _ pb before after
             (placementsAll_skip pb Hnothing)).
  rewrite (skip_filter (confirmAll r instance _) _ pb before after
             (confirmAll_skip pb Hnothing _)).
  by rewrite (skip_filter (matchedPlacements r instance _) _ pb before after
                (matchedPlacements_skip pb Hnothing _)).
Qed.

Lemma resolver_decisionRequests (pb : PlacementBinding) :
  decisionRequests (calls (getPolicyPlacementDecisions r instance pb)) = []
  ∨ (Disabled instance = false
     ∧ decisionRequests (calls (getPolicyPlacementDecisions r instance pb)) = [pb]).
Proof.
  rewrite resolver_run.
  assert (∀ cs, decisionRequests (CallResolve pb :: subjectCalls r instance pb ++ cs)
                = decisionRequests cs) as Happ.
  { intros cs. unfold decisionRequests. cbn [omap list_omap]. rewrite omap_app.
    fold (decisionRequests (subjectCalls r instance pb)).
    by rewrite subjectCalls_decisions. }
  destruct (negb _); [by left|].
  case_bool_decide.
  { left. cbn [calls]. rewrite <- (app_nil_r (subjectCalls r instance pb)).
    by rewrite Happ. }
  destruct (refError r pb).
  { left. cbn [calls]. by rewrite Happ, refLookup_decisions. }
  destruct (Disabled instance); cbn [calls]; rewrite Happ.
  - left. apply refLookup_decisions.
  - right. split; [done|]. unfold decisionRequests. rewrite omap_app.
    fold (decisionRequests (refLookup pb)). by rewrite refLookup_decisions.
Qed.

Lemma requestsOf_decisionRequests (pbs : list PlacementBinding) :
  decisionRequests (requestsOf r instance pbs) `sublist_of` pbs
  ∧ (Disabled instance = true → decisionRequests (requestsOf r instance pbs) = []).
Proof.
  induction pbs as [|pb pbs [IHsub IHdis]]; [done|].
  unfold requestsOf. rewrite bind_cons. fold (requestsOf r instance pbs).
  unfold decisionRequests. rewrite omap_app.
  fold (decisionRequests (calls (getPolicyPlacementDecisions r instance pb))).
  fold (decisionRequests (requestsOf r instance pbs)).
  destruct (resolver_decisionRequests pb) as [->|[Hen ->]]; cbn [app].
  - split; [by apply sublist_cons|done].
  - split; [by apply sublist_skip|]. congruence.
Qed.

(** X15. In one run of the builder the decisions of a binding are
    requested at most once for each place the binding has in the list, and
    only of bindings of the list; for a disabled policy they are never
    requested. *)
Theorem decisions_requested_once_per_binding (pbList : list PlacementBinding) :
  decisionRequests (calls (getAllClusterDecisions r instance pbList)) ⊆+ pbList
  ∧ (Disabled instance = true →
     decisionRequests (calls (getAllClusterDecisions r instance pbList)) = []).
Proof.
  rewrite getAllClusterDecisions_calls.
  destruct (requestsOf_decisionRequests
              (invoked (calls (getAllClusterDecisions r instance pbList))))
    as [Hsub Hdis].
  split; [|done]. etrans; [by apply sublist_submseteq|].
  rewrite getAllClusterDecisions_invoked.
  etrans; [|apply Permutation_submseteq, unrestricted_restricted_perm].
  apply submseteq_app.
  - destruct (attempted_prefix r instance (unrestricted pbList)) as [k Hk].
    rewrite Hk at 2. by apply submseteq_inserts_r.
  - destruct (firstError r instance (unrestricted pbList)); [apply submseteq_nil_l|].
    case_bool_decide; [apply submseteq_nil_l|].
    destruct (attempted_prefix r instance (restricted pbList)) as [k Hk].
    rewrite Hk at 2. by apply submseteq_inserts_r.
Qed.

End influence.

(** * Further worked cases

    The store of the scenario with a policy set [web] that holds the policy
    and a placement [pl], and two more bindings: [viaSet] binds the policy
    through the policy set, and names it twice; [other] is a binding for
    another policy. *)

Module checks.
Import scenario.

#[local] Existing Instance insertionSorter.

Definition setSubject (name : string) : Subject :=
  {| subjAPIGroup := SchemeGroupVersion_Group; subjKind := PolicySetKind;
     subjName := name |}.

Definition foreign : Subject :=
  {| subjAPIGroup := "apps.open-cluster-management.io"; subjKind := Kind;
     subjName := "p" |}.

Definition store : Client :=
  {| storePolicySet := λ key,
       if String.eqb (Namespace key) "ns" && String.eqb (Name key) "web"
       then Found {| Policies := ["q"; "p"] |} else Failed notFound;
     storePlacementRule := storePlacementRule client;
     storePlacement := λ key,
       if String.eqb (Name key) "pl" then Found {| plcName := "pl" |}
       else Failed notFound;
     storePolicy := storePolicy client;
     storeBindings := storeBindings client;
     storeStatusUpdate := storeStatusUpdate client;
     common_HasValidPlacementRef := common_HasValidPlacementRef client;
     common_GetDecisions := common_GetDecisions client;
     propagator_CalculateRootCompliance := propagator_CalculateRootCompliance client |}.

Definition viaSet : PlacementBinding :=
  {| pbName := "via-set"; pbNamespace := "ns";
     PlacementRef := {| refAPIGroup := "cluster.open-cluster-management.io";
                        refKind := "Placement"; refName := "pl" |};
     Subjects := [setSubject "web"; foreign; setSubject "web"; setSubject "db"];
     SubFilter := "";
     pbBindingOverrides := {| RemediationAction := "" |} |}.

Definition other : PlacementBinding :=
  {| pbName := "other"; pbNamespace := "ns";
     PlacementRef := {| refAPIGroup := "apps.open-cluster-management.io";
                        refKind := "PlacementRule"; refName := "g1" |};
     Subjects := [ {| subjAPIGroup := SchemeGroupVersion_Group; subjKind := Kind;
                      subjName := "q" |} ];
     SubFilter := "";
     pbBindingOverrides := {| RemediationAction := "Enforce" |} |}.

(** What the resolver does with [viaSet]: one lookup for each of the two
    policy sets, one of the placement, one of the decisions. *)
Example resolve_viaSet :
  getPolicyPlacementDecisions store policy viaSet =
    mkM ([], [ {| plPlacementBinding := "via-set"; plPlacement := "pl";
                  plPlacementRule := ""; plPolicySet := "web" |} ], None)
        [CallResolve viaSet;
         CallGetPolicySet {| Namespace := "ns"; Name := "web" |};
         CallGetPolicySet {| Namespace := "ns"; Name := "db" |};
         CallGetPlacement {| Namespace := "ns"; Name := "pl" |};
         CallGetDecisions viaSet].
Proof. vm_compute. reflexivity. Qed.

Lemma redundant_subject_changes_nothing_witness :
  subjectsLoop store policy viaSet noSubjects
      ([setSubject "web"; foreign] ++ setSubject "web" :: [setSubject "db"])
    = subjectsLoop store policy viaSet noSubjects
        ([setSubject "web"; foreign] ++ [setSubject "db"]).
Proof.
  apply (redundant_subject_changes_nothing store policy viaSet noSubjects
           [setSubject "web"; foreign] [setSubject "db"] (setSubject "web")).
  left. left.
Defined.

Lemma policy_sets_fetched_once_witness :
  NoDup (policySetRequests (calls (getPolicyPlacementDecisions store policy viaSet)))
  ∧ {| Namespace := "ns"; Name := "web" |}
      ∈ policySetRequests (calls (getPolicyPlacementDecisions store policy viaSet)).
Proof.
  pose proof (policy_sets_fetched_once store policy viaSet) as Hfetched.
  cbn zeta in Hfetched. destruct Hfetched as (Hnodup & _ & Hall & _).
  split; [exact Hnodup|].
  apply (Hall eq_refl (setSubject "web")); [left|reflexivity].
Defined.

Lemma resolver_records_witness :
  {| plPlacementBinding := "via-set"; plPlacement := "pl"; plPlacementRule := "";
     plPolicySet := "web" |} ∈ placementsOf store policy viaSet.
Proof.
  apply (proj1 (resolver_records store policy viaSet _)).
  split; [reflexivity|]. split; [reflexivity|].
  exists (setSubject "web"), (newPlacement "via-set" "web").
  split; [left|]. split; [|reflexivity].
  right. split; [reflexivity|]. split; [vm_compute; reflexivity|reflexivity].
Defined.

Lemma decision_lookup_guarded_witness :
  decisionRequests (calls (getPolicyPlacementDecisions client policy b1)) = [b1]
  ∧ last (calls (getPolicyPlacementDecisions client policy b1))
    = Some (CallGetDecisions b1).
Proof.
  pose proof (decision_lookup_guarded client policy b1) as Hguarded.
  cbn zeta in Hguarded. destruct Hguarded as (_ & _ & Hiff & Hlast & _).
  assert (decisionRequests (calls (getPolicyPlacementDecisions client policy b1)) = [b1])
    as Hasked.
  { apply Hiff. split; [reflexivity|]. intros Hnil. vm_compute in Hnil. discriminate Hnil. }
  split; [exact Hasked|]. exact (proj1 (Hlast Hasked)).
Defined.

Lemma irrelevant_binding_resolves_to_nothing_witness :
  common_HasValidPlacementRef store other = true
  ∧ resolve store policy other = ([], [], None).
Proof.
  split; [reflexivity|].
  destruct (irrelevant_binding_resolves_to_nothing store policy other eq_refl)
    as ([Hnothing _] & _).
  apply Hnothing. constructor; [vm_compute; reflexivity|constructor].
Defined.

Lemma decision_map_nil_or_nonempty_witness :
  ∃ decisions,
    (result (getAllClusterDecisions client policy [b1; b2; b3])).1.1 = Some decisions
    ∧ decisions ≠ ∅.
Proof.
  pose proof (decision_map_nil_or_nonempty client policy [b1; b2; b3] _ _ _
                build_scenario) as [Hsome _].
  eexists. split; [|exact Hsome]. by rewrite build_scenario.
Defined.

Lemma returned_placements_witness :
  record "b3" "g3" ∈ [record "b1" "g1"; record "b2" "g2"; record "b3" "g3"].
Proof.
  apply (proj2 (returned_placements client policy [b1; b2; b3] _ _ (record "b3" "g3")
                  build_scenario)).
  exists b3. split; [right; right; left|].
  assert (placementsOf client policy b3 = [record "b3" "g3"]) as ->
    by (vm_compute; reflexivity).
  assert (targetsOf client policy b3 = [cluster "clusterB"; cluster "clusterC"]) as ->
    by (vm_compute; reflexivity).
  split; [left|]. right. exists (cluster "clusterB"). split; [left|].
  exists {| RemediationAction := "enforce" |}. vm_compute. reflexivity.
Defined.


Lemma builder_requests_through_resolver_witness :
  invoked (calls (getAllClusterDecisions client policy [b1; b2; b3])) ⊆+ [b1; b2; b3]
  ∧ invoked (calls (getAllClusterDecisions client policy [b1; b2; b3]))
    = unrestricted [b1; b2; b3] ++ restricted [b1; b2; b3].
Proof.
  pose proof (builder_requests_through_resolver client policy [b1; b2; b3]) as Hrun.
  cbn zeta in Hrun. destruct Hrun as (_ & _ & Hsub & Hall).
  split; [exact Hsub|]. exact (Hall _ _ _ build_scenario).
Defined.

Lemma getDecisions_outcomes_witness :
  getDecisions client strayPolicy
    = mkM ([], ∅, Some (mkError false "the server is unavailable" None))
          [CallListBindings "elsewhere"].
Proof.
  destruct (getDecisions_outcomes client strayPolicy) as (_ & Hfails & _).
  apply Hfails. reflexivity.
Defined.

Lemma status_reports_targets_only_witness :
  IsNotFound (timeout "clusterC") = false
  ∧ ∃ dec, is_Some (decided [cluster "clusterC"; cluster "clusterB"; cluster "clusterA"]
                      !! dec)
           ∧ storePolicy client (replicaKey policy dec) = Failed (timeout "clusterC").
Proof.
  pose proof (@status_reports_targets_only client insertionSorter rangeBackward policy
                (decided [cluster "clusterC"; cluster "clusterB"; cluster "clusterA"]))
    as Hstatus.
  cbn zeta in Hstatus. destruct Hstatus as (_ & _ & Herror).
  destruct (Herror (timeout "clusterC")) as (_ & Hnf & Hdec);
    [by rewrite status_scenario|].
  split; [exact Hnf|exact Hdec].
Defined.

Lemma status_update_written_witness :
  ∃ reads obj,
    calls (@rootStatusUpdate client insertionSorter rangeForward policy)
      = reads ++ [CallStatusUpdate obj]
    ∧ Forall (λ c, isRead c = true) reads
    ∧ stPlacement (Status obj)
      = [record "b1" "g1"; record "b2" "g2"; record "b3" "g3"]
    ∧ length (stStatus (Status obj)) = 2.
Proof.
  assert (result (getDecisions client policy)
          = ([record "b1" "g1"; record "b2" "g2"; record "b3" "g3"],
             decided [cluster "clusterA"; cluster "clusterB"], None)) as Hdec
    by (vm_compute; reflexivity).
  destruct (@status_update_written client insertionSorter rangeForward policy _ _ Hdec)
    as (reads & obj & Hcalls & Hreads & _ & _ & _ & _ & Hplacements & _ & _ & Hlength).
  exists reads, obj. split; [exact Hcalls|]. split; [exact Hreads|].
  split; [exact Hplacements|]. rewrite Hlength. vm_compute. reflexivity.
Defined.

Lemma reconcile_under_lock_witness :
  result (@Reconcile client insertionSorter rangeForward {| Namespace := "ns"; Name := "p" |})
    = result (@rootStatusUpdate client insertionSorter rangeForward policy)
  ∧ ∃ reads,
      Forall (λ c, isRead c = true) reads
      ∧ head reads = Some (CallGetPolicy {| Namespace := "ns"; Name := "p" |}).
Proof.
  pose proof (@reconcile_under_lock client insertionSorter rangeForward
                {| Namespace := "ns"; Name := "p" |}) as Hrun.
  cbn zeta in Hrun. destruct Hrun as ((reads & Hreads & Hhead & _) & _ & Hfound).
  split; [apply Hfound; reflexivity|]. exists reads. split; [exact Hreads|exact Hhead].
Defined.

Lemma irrelevant_binding_has_no_influence_witness :
  resolve client policy other = ([], [], None)
  ∧ result (getAllClusterDecisions client policy ([b1] ++ other :: [b2; b3]))
    = result (getAllClusterDecisions client policy ([b1] ++ [b2; b3])).
Proof.
  assert (resolve client policy other = ([], [], None)) as Hnothing
    by (vm_compute; reflexivity).
  split; [exact Hnothing|].
  exact (irrelevant_binding_has_no_influence client policy [b1] [b2; b3] other Hnothing).
Defined.

Lemma decisions_requested_once_per_binding_witness :
  decisionRequests (calls (getAllClusterDecisions client policy [b1; b2; b3]))
    ⊆+ [b1; b2; b3]
  ∧ decisionRequests (calls (getAllClusterDecisions client disabledPolicy [b1; b2; b3]))
    = [].
Proof.
  split.
  - exact (proj1 (decisions_requested_once_per_binding client policy [b1; b2; b3])).
  - apply (proj2 (decisions_requested_once_per_binding client disabledPolicy
                    [b1; b2; b3])).
    reflexivity.
Defined.

End checks.
